(** * Time-scaled tree layout of [bin/visualize_tree.py]

    A shallow embedding of [plot_timetree]: loading a tree with two parser
    fall-backs, placing the nodes in absolute time, laying the tips out
    vertically, and turning the placed tree into drawing primitives and
    axis limits.

    Python floats are modelled as exact rationals extended with the two
    infinities and NaN ([pyfloat]); coordinates of a validated tree are
    plain rationals [Q], compared with [==]. *)

From Stdlib Require Import List String Ascii Bool Arith NArith ZArith QArith.
From Stdlib Require Import Qminmax Lia Lqa Sorted Permutation.
Import ListNotations.

Local Open Scope Q_scope.

(** ** Numbers *)

(** A Python [float]: a rational, an infinity or NaN. *)
Inductive pyfloat : Type :=
| Finite (q : Q)
| PosInf
| NegInf
| NaN.

(** [bool(x)] of a float: only zero is falsy (NaN and the infinities are
    truthy). *)
Definition truthy (x : pyfloat) : bool :=
  match x with
  | Finite q => negb (Qeq_bool q 0)
  | _ => true
  end.

(** [x >= c] for a float [x] and a finite literal [c]; every comparison
    with NaN is false. *)
Definition float_ge (x : pyfloat) (c : Q) : bool :=
  match x with
  | Finite q => Qle_bool c q
  | PosInf => true
  | NegInf => false
  | NaN => false
  end.

(** Python's [min] and [max] of a list: [None] stands for the [ValueError]
    raised on an empty list; on ties the earlier element is kept. *)
Definition py_min (l : list Q) : option Q :=
  match l with
  | [] => None
  | x :: r => Some (fold_left Qmin r x)
  end.

Definition py_max (l : list Q) : option Q :=
  match l with
  | [] => None
  | x :: r => Some (fold_left Qmax r x)
  end.

(** ** Tree model *)

(** A tree object as the drawing code reads it: [name], [traits],
    [absoluteTime], [y] and [children] are the attributes used by
    [plot_timetree].  The class itself belongs to the tree library, which
    is not part of the repository sources; from the spec's data model come
    [branch_length], the distance to the parent, and [height], the
    cumulative distance from the root.  The three coordinate slots
    [height], [absoluteTime] and [y] are overwritten by the layout passes,
    which never read their previous content.  [traits] is [None] when the
    object has no such attribute at all. *)
Unset Elimination Schemes.
Inductive node : Type := Node {
  name : string;
  branch_length : option pyfloat;
  traits : option (list (string * pyfloat));
  height : Q;
  absoluteTime : Q;
  y : Q;
  children : list node
}.
Set Elimination Schemes.

Section node_induction.
Variable P : node -> Prop.
Hypothesis step : forall nm bl tr h a v cs,
    Forall P cs -> P (Node nm bl tr h a v cs).

Fixpoint node_ind (n : node) : P n :=
  match n with
  | Node nm bl tr h a v cs =>
      step nm bl tr h a v cs
        ((fix all (l : list node) : Forall P l :=
            match l with
            | [] => Forall_nil P
            | c :: r => Forall_cons c (node_ind c) (all r)
            end) cs)
  end.
End node_induction.

(** A leaf is a node without children. *)
Definition is_leaf (n : node) : bool :=
  match children n with
  | [] => true
  | _ :: _ => false
  end.

(** An entry of [tree.Objects]: the node itself, its [parent] reference
    ([None] for the root) and its position among the parent's children.
    In an arborescence every node occurs exactly once as a child, so the
    identity test [node.parent.children[0] == node] is the test that this
    position is 0. *)
Record object : Type := Object {
  this : node;
  parent : option node;
  sibling_index : nat
}.

(** Modelled from the spec: the flat list [tree.Objects] kept by the tree
    library (not part of the repository sources), every node exactly once,
    in pre-order of the input child order, each with its parent
    back-reference. *)
Fixpoint objects_from (par : option node) (i : nat) (n : node) : list object :=
  Object n par i ::
  (fix siblings (k : nat) (l : list node) : list object :=
     match l with
     | [] => []
     | c :: r => objects_from (Some n) k c ++ siblings (S k) r
     end) 0%nat (children n).

Definition Objects (tree : node) : list object := objects_from None 0 tree.

(** Modelled from the spec: [tree.getExternal()] and [tree.getInternal()],
    the leaves-only and internal-only views of [Objects]. *)
Definition getExternal (tree : node) : list node :=
  filter is_leaf (map this (Objects tree)).

Definition getInternal (tree : node) : list node :=
  filter (fun n => negb (is_leaf n)) (map this (Objects tree)).

(** ** Errors *)

(** The typed failures of the core. *)
Inductive error : Type :=
| MalformedTreeError
| InvalidBranchLengthError
| EmptyTreeError.

Inductive result (A : Type) : Type :=
| Ok (a : A)
| Raise (e : error).
Arguments Ok {A} a.
Arguments Raise {A} e.

Definition bind {A B : Type} (c : result A) (k : A -> result B) : result B :=
  match c with
  | Ok a => k a
  | Raise e => Raise e
  end.

Notation "x <- c ;; k" := (bind c (fun x => k))
  (at level 61, c at next level, right associativity).

(** ** Time propagation *)

(** Modelled from the spec: a missing branch length counts as 0; a
    negative or non-finite one is rejected ([None] here). *)
Definition checked_length (l : option pyfloat) : option Q :=
  match l with
  | None => Some 0
  | Some (Finite q) => if Qle_bool 0 q then Some q else None
  | Some PosInf => None
  | Some NegInf => None
  | Some NaN => None
  end.

(** Modelled from the spec: the branch length that enters the cumulative
    distance of a node, 0 when none is declared. *)
Definition length_of (n : node) : Q :=
  match checked_length (branch_length n) with
  | Some q => q
  | None => 0
  end.

(** Modelled from the spec: the pre-order pass of the tree library's
    [traverse_tree] (not part of the repository sources).  A node placed at
    cumulative distance [h] puts each child at [h] plus the child's branch
    length; the pass stops with [InvalidBranchLengthError] at the first
    rejected length and then returns no tree at all. *)
Fixpoint traverse (h : Q) (n : node) : result node :=
  match checked_length (branch_length n) with
  | None => Raise InvalidBranchLengthError
  | Some _ =>
      cs <- (fix kids (l : list node) : result (list node) :=
               match l with
               | [] => Ok []
               | c :: r =>
                   c' <- traverse (h + length_of c) c ;;
                   r' <- kids r ;;
                   Ok (c' :: r')
               end) (children n) ;;
      Ok (Node (name n) (branch_length n) (traits n) h (absoluteTime n) (y n) cs)
  end.

(** Modelled from the spec: [tree.traverse_tree()] starts at the root,
    which is at cumulative distance 0 from itself. *)
Definition traverse_tree (tree : node) : result node := traverse 0 tree.

(** Modelled from the spec: [tree_height], the largest cumulative distance
    over the leaves; a tree without leaves is an [EmptyTreeError]. *)
Definition tree_height (tree : node) : result Q :=
  match py_max (map height (getExternal tree)) with
  | Some h => Ok h
  | None => Raise EmptyTreeError
  end.

(** Modelled from the spec: [tree.treeStats()], which traverses the tree
    and reports its height under the key ['height']. *)
Definition treeStats (tree : node) : result (node * Q) :=
  t <- traverse_tree tree ;;
  h <- tree_height t ;;
  Ok (t, h).

(** Modelled from the spec: [tree.setAbsoluteTime(date)] anchors the most
    recent tip, the one at distance [treeHeight] from the root, at the
    reference time [date]; time increases toward the present, so a node at
    cumulative distance [height] lies [treeHeight - height] before [date]. *)
Fixpoint place (date treeHeight : Q) (n : node) : node :=
  Node (name n) (branch_length n) (traits n) (height n)
       (date - treeHeight + height n) (y n)
       (map (place date treeHeight) (children n)).

(** Modelled from the spec: [tree.setAbsoluteTime(date)] for the whole
    tree, with the tree's own height as [treeHeight]. *)
Definition setAbsoluteTime (date : Q) (tree : node) : result node :=
  h <- tree_height tree ;;
  Ok (place date h tree).

(** Line 42, [tree.setAbsoluteTime(tree.treeStats()['height'])]. *)
Definition time_propagation (tree : node) : result node :=
  st <- treeStats tree ;;
  setAbsoluteTime (snd st) (fst st).

(** ** Vertical layout *)

(** Modelled from the spec: the vertical position of the [k]-th leaf slot,
    and the arithmetic mean that places an internal node. *)
Definition slot (k : nat) : Q := inject_Z (Z.of_nat k).

Definition mean (l : list Q) : Q :=
  fold_right Qplus 0 l / inject_Z (Z.of_nat (List.length l)).

(** Modelled from the spec: the tree library's [drawTree] (not part of the
    repository sources).  Leaves take the next unused slot of a counter in
    the order they are met, children first to last; an internal node sits
    at the mean of its immediate children. *)
Fixpoint layout (next : nat) (n : node) : node * nat :=
  match children n with
  | [] =>
      (Node (name n) (branch_length n) (traits n) (height n) (absoluteTime n)
            (slot next) [], S next)
  | _ :: _ =>
      let '(cs, next') :=
        (fix kids (k : nat) (l : list node) : list node * nat :=
           match l with
           | [] => ([], k)
           | c :: r =>
               let '(c', k1) := layout k c in
               let '(r', k2) := kids k1 r in
               (c' :: r', k2)
           end) next (children n) in
      (Node (name n) (branch_length n) (traits n) (height n) (absoluteTime n)
            (mean (map y cs)) cs, next')
  end.

(** Modelled from the spec: [tree.drawTree()], the layout of the whole
    tree with the slot counter started at 0. *)
Definition drawTree (tree : node) : node := fst (layout 0 tree).

(** ** Geometry *)

Inductive tier : Type := high | medium.

(** The drawing primitives.  A [BranchSegment x0 y x1] is the horizontal
    line from [(x0, y)] to [(x1, y)]; a [ConnectorSegment x y0 y1] the
    vertical line from [(x, y0)] to [(x, y1)]. *)
Inductive primitive : Type :=
| BranchSegment (x0 y x1 : Q)
| ConnectorSegment (x y0 y1 : Q)
| TipLabel (x y : Q) (text : string)
| SupportMarker (x y : Q) (t : tier).

(** One turn of the loop over [tree.Objects] (lines 66-78): the branch of
    a node that has a parent and, when the node is its parent's first
    child and the parent has more than one child, the vertical line that
    joins the parent's children. *)
Definition draw_object (o : object) : list primitive :=
  match parent o with
  | None => []
  | Some p =>
      BranchSegment (absoluteTime p) (y (this o)) (absoluteTime (this o)) ::
      (if (sibling_index o =? 0)%nat then
         let child_ys := map y (children p) in
         if (1 <? List.length child_ys)%nat then
           match py_min child_ys, py_max child_ys with
           | Some lo, Some hi => [ConnectorSegment (absoluteTime p) lo hi]
           | _, _ => []
           end
         else []
       else [])
  end.

Definition draw_branches (tree : node) : list primitive :=
  flat_map draw_object (Objects tree).

(** [sorted(l, key=...)]: a stable sort by a rational key. *)
Fixpoint insert_by (key : node -> Q) (x : node) (l : list node) : list node :=
  match l with
  | [] => [x]
  | h :: r => if Qle_bool (key x) (key h) then x :: h :: r
              else h :: insert_by key x r
  end.

Definition sorted (key : node -> Q) (l : list node) : list node :=
  fold_right (insert_by key) [] l.

(** Lines 85-88: the tips sorted by [y], one label each. *)
Definition tips (tree : node) : list node := sorted y (getExternal tree).

Definition tip_label (tip : node) : primitive :=
  TipLabel (absoluteTime tip) (y tip) (String.append "  " (name tip)).

Definition draw_tip_labels (tree : node) : list primitive :=
  map tip_label (tips tree).

(** Lines 93-96: the [posterior] trait of a node, if it has one. *)
Fixpoint lookup (k : string) (d : list (string * pyfloat)) : option pyfloat :=
  match d with
  | [] => None
  | (k', v) :: r => if String.eqb k k' then Some v else lookup k r
  end.

Definition posterior_of (n : node) : option pyfloat :=
  match traits n with
  | Some d => lookup "posterior" d
  | None => None
  end.

(** Lines 98-103: the marker of one internal node. *)
Definition draw_support (n : node) : list primitive :=
  match posterior_of n with
  | None => []
  | Some posterior =>
      if truthy posterior && float_ge posterior 0.95 then
        [SupportMarker (absoluteTime n) (y n) high]
      else if truthy posterior && float_ge posterior 0.75 then
        [SupportMarker (absoluteTime n) (y n) medium]
      else []
  end.

Definition draw_supports (tree : node) : list primitive :=
  flat_map draw_support (getInternal tree).

(** Everything handed to the drawing surface, in drawing order. *)
Definition primitives (tree : node) : list primitive :=
  draw_branches tree ++ draw_tip_labels tree ++ draw_supports tree.

(** Lines 106-113: the axis limits. *)
Definition xlim (tree : node) : option (Q * Q) :=
  let times := map absoluteTime (map this (Objects tree)) in
  match py_min times, py_max times with
  | Some min_time, Some max_time =>
      let time_range := max_time - min_time in
      Some (min_time - time_range * 0.05, max_time + time_range * 0.3)
  | _, _ => None
  end.

Definition ylim (tree : node) : Q * Q :=
  (- 0.5, inject_Z (Z.of_nat (List.length (tips tree))) - 0.5).

(** ** Loading and the whole of [plot_timetree] *)

(** What a parser of the tree library raises: an [Exception] or something
    outside that class (a [BaseException] such as [KeyboardInterrupt]). *)
Inductive raised : Type :=
| Exception (msg : string)
| BaseException (msg : string).

Inductive parse : Type :=
| Parsed (tree : node)
| Failed (e : raised).

Inductive loaded : Type :=
| Loaded (tree : node)
| LoadExit (status : Z) (stderr : string)
| LoadUncaught (e : raised).

(** How a call of [plot_timetree] ends before any drawing: the process
    exits, an exception leaves the function, the core fails with a typed
    error, or the drawing calls are reached with the primitives and the
    two axis limits ([Drawn]).  What the drawing surface and the save loop
    do from there on is outside this part of the model. *)
Inductive outcome : Type :=
| Exit (status : Z) (stderr : string)
| Uncaught (e : raised)
| Fails (e : error)
| Drawn (prims : list primitive) (xl yl : Q * Q).

(** Lines 41-56: the layout passes in the order the script calls them.
    [treeStats] is called a second time for the printed summary and the
    tree is traversed once more before [drawTree]. *)
Definition layout_passes (tree : node) : result node :=
  t1 <- time_propagation tree ;;
  stats <- treeStats t1 ;;
  t2 <- traverse_tree (fst stats) ;;
  Ok (drawTree t2).

Section Loading.

(** The two parsers of the tree library, [bt.loadNexus] and
    [bt.loadNewick], are external. *)
Variable loadNexus : string -> parse.
Variable loadNewick : string -> parse.

(** Lines 32-39.  The outer bare [except:] swallows whatever the first
    parser raised; the inner [except Exception as e] prints that second
    error to stderr and calls [sys.exit(1)]. *)
Definition load_tree (tree_file : string) : loaded :=
  match loadNexus tree_file with
  | Parsed tree => Loaded tree
  | Failed _ =>
      match loadNewick tree_file with
      | Parsed tree => Loaded tree
      | Failed (Exception e) =>
          LoadExit 1 (String.append "Error loading tree: " e)
      | Failed (BaseException e) => LoadUncaught (BaseException e)
      end
  end.

(** Lines 25-113 of [plot_timetree]: from loading the tree to the point
    where the primitives and the axis limits are handed to the drawing
    surface, without the calls of that surface.  [plot_and_save] below
    is the whole function, with those calls and the save loop in their
    places. *)
Definition plot_timetree (tree_file : string) : outcome :=
  match load_tree tree_file with
  | LoadExit status msg => Exit status msg
  | LoadUncaught e => Uncaught e
  | Loaded tree =>
      match layout_passes tree with
      | Raise e => Fails e
      | Ok t =>
          match xlim t with
          | Some xl => Drawn (primitives t) xl (ylim t)
          | None => Uncaught (Exception "min() arg is an empty sequence")
          end
      end
  end.

End Loading.

(** ** Vocabulary of the statements *)

(** All nodes of a tree in pre-order. *)
Fixpoint nodes (n : node) : list node :=
  n :: flat_map nodes (children n).

(** The objects below a node [p]: those of its children [l], numbered from
    [k]. *)
Fixpoint children_objects (p : node) (k : nat) (l : list node) : list object :=
  match l with
  | [] => []
  | c :: r => objects_from (Some p) k c ++ children_objects p (S k) r
  end.

Definition is_branch (g : primitive) : bool :=
  match g with BranchSegment _ _ _ => true | _ => false end.

Definition is_connector (g : primitive) : bool :=
  match g with ConnectorSegment _ _ _ => true | _ => false end.

Definition is_tip_label (g : primitive) : bool :=
  match g with TipLabel _ _ _ => true | _ => false end.

Definition is_marker (g : primitive) : bool :=
  match g with SupportMarker _ _ _ => true | _ => false end.

(** The branch segment owed to an object: none for the root, one from the
    parent's time to the node's own time otherwise. *)
Definition branch_of (o : object) : list primitive :=
  match parent o with
  | None => []
  | Some p =>
      [BranchSegment (absoluteTime p) (y (this o)) (absoluteTime (this o))]
  end.

(** [m] is the least (greatest) element of [l]. *)
Definition least (m : Q) (l : list Q) : Prop :=
  In m l /\ forall x, In x l -> m <= x.

Definition greatest (m : Q) (l : list Q) : Prop :=
  In m l /\ forall x, In x l -> x <= m.

(** The connector owed to a node: none below two children, otherwise one
    at the node's time, from the lowest to the highest of its immediate
    children. *)
Definition connector_of (n : node) : list primitive :=
  match children n with
  | [] => []
  | [_] => []
  | c :: r =>
      [ConnectorSegment (absoluteTime n)
         (fold_left Qmin (map y r) (y c)) (fold_left Qmax (map y r) (y c))]
  end.

(** The vertical position carried by a tip label. *)
Definition label_y (g : primitive) : list Q :=
  match g with TipLabel _ v _ => [v] | _ => [] end.

(** [x >= c] and [x < c] on floats as propositions; NaN satisfies
    neither. *)
Definition at_least (x : pyfloat) (c : Q) : Prop :=
  match x with
  | Finite q => c <= q
  | PosInf => True
  | NegInf => False
  | NaN => False
  end.

Definition below (x : pyfloat) (c : Q) : Prop :=
  match x with
  | Finite q => q < c
  | PosInf => False
  | NegInf => True
  | NaN => False
  end.

(** A branch length the time propagation rejects: negative, infinite or
    NaN. *)
Definition rejected (l : option pyfloat) : Prop :=
  match l with
  | None => False
  | Some (Finite q) => q < 0
  | Some _ => True
  end.

(** The two passes over a list of children, as named functions. *)
Fixpoint traverse_children (h : Q) (l : list node) : result (list node) :=
  match l with
  | [] => Ok []
  | c :: r =>
      c' <- traverse (h + length_of c) c ;;
      r' <- traverse_children h r ;;
      Ok (c' :: r')
  end.

Fixpoint layout_children (k : nat) (l : list node) : list node * nat :=
  match l with
  | [] => ([], k)
  | c :: r =>
      let '(c', k1) := layout k c in
      let '(r', k2) := layout_children k1 r in
      (c' :: r', k2)
  end.

(** The leaves of a tree in pre-order, and their number. *)
Definition leaves (n : node) : list node := filter is_leaf (nodes n).

Definition leaf_count (n : node) : nat := List.length (leaves n).

(** [traversed h n]: every branch length below [n] is accepted, [n] is at
    cumulative distance [h] and each child at its parent's distance plus
    its own length. *)
#[local] Unset Elimination Schemes.
Inductive traversed : Q -> node -> Prop :=
| traversed_node h n :
    height n = h ->
    checked_length (branch_length n) <> None ->
    Forall (fun c => traversed (h + length_of c) c) (children n) ->
    traversed h n.

#[local] Set Elimination Schemes.

(** [placed date H n]: every node below [n] has the time that
    [setAbsoluteTime date] gives it in a tree of height [H]. *)
Definition placed (date H : Q) (n : node) : Prop :=
  Forall (fun m => absoluteTime m = date - H + height m) (nodes n).

(** [laid_out k n]: the leaves below [n] occupy the slots from [k] on and
    every internal node is at the mean of its children. *)
Inductive laid_out : nat -> node -> Prop :=
| laid_out_leaf k n :
    children n = [] -> y n = slot k -> laid_out k n
| laid_out_fork k n :
    children n <> [] ->
    y n = mean (map y (children n)) ->
    laid_out_children k (children n) ->
    laid_out k n
with laid_out_children : nat -> list node -> Prop :=
| laid_out_nil k : laid_out_children k []
| laid_out_cons k c r :
    laid_out k c ->
    laid_out_children (k + leaf_count c) r ->
    laid_out_children k (c :: r).

(** Two nodes that differ at most in [y] and in what lies below them. *)
Definition agree (m m' : node) : Prop :=
  (name m' = name m) /\ (branch_length m' = branch_length m) /\
  (traits m' = traits m) /\ (height m' = height m) /\
  (absoluteTime m' = absoluteTime m) /\ (is_leaf m' = is_leaf m).

(** The topology of a tree with its child order, nothing else. *)
Unset Elimination Schemes.
Inductive shape : Type := Shape (subshapes : list shape).
Set Elimination Schemes.

Fixpoint shape_of (n : node) : shape :=
  Shape (map shape_of (children n)).

(** A tree made of a single node, and the three-leaf tree
    [((A:1,B:2):1,C:4):0] with posterior 0.95 on the inner node. *)
Definition tip (nm : string) (l : Q) : node :=
  Node nm (Some (Finite l)) (Some []) 0 0 0 [].

Definition single_node : node := Node "A" None (Some []) 0 0 0 [].

Definition three_leaves : node :=
  Node "" (Some (Finite 0)) (Some []) 0 0 0
    [ Node "" (Some (Finite 1)) (Some [("posterior"%string, Finite 0.95)]) 0 0 0
        [tip "A" 1; tip "B" 2];
      tip "C" 4 ].

(** The three-leaf tree after the layout passes, and a tree whose only
    leaf declares a negative branch length. *)
Definition three_leaves_drawn : node :=
  Eval vm_compute in
    match layout_passes three_leaves with
    | Ok t => t
    | Raise _ => three_leaves
    end.

Definition negative_branch : node :=
  Node "" None (Some []) 0 0 0 [tip "A" (-1)].

(** A parser that always fails with the given message. *)
Definition failing_parser (msg : string) (tree_file : string) : parse :=
  Failed (Exception msg).

(** ** The rest of [visualize_tree.py] *)

(** Line 52: the figure is 12 wide and at least 8 high, 0.2 per tip beyond
    that ([max] keeps its first argument on a tie). *)
Definition figsize (tree : node) : Q * Q :=
  (12, Qmax 8 (inject_Z (Z.of_nat (List.length (getExternal tree))) * 0.2)).



Section Saving.

(** The drawing surface is external and has a state of its own.
    [subplots] stands for [plt.subplots] (line 52), [draw] for the calls of
    [ax.plot] and [ax.text] (lines 81-103), [set_axes] for the axis
    settings, the title, the legend and [plt.tight_layout] (lines 111-129),
    [savefig] for [plt.savefig] and [close] for [plt.close]; each may
    raise. *)
Variable world : Type.
Variable subplots : world -> Q * Q -> world * option raised.
Variable draw : world -> list primitive -> world * option raised.
Variable set_axes : world -> Q * Q -> Q * Q -> world * option raised.
Variable savefig : world -> string -> world * option raised.
Variable close : world -> world * option raised.




End Saving.




(** ** [generate_report.py] *)

(** A Python [str] as the list of its code points; the literals of the
    script are ASCII. *)
Definition pystr : Type := list N.

Definition lit (s : string) : pystr :=
  map N_of_ascii (list_ascii_of_string s).

(** One row of the parameter table, lines 64-72. *)
Record log_row : Type := LogRow {
  statistic : pystr;
  mean_field : pystr;
  stderr_field : pystr;
  median_field : pystr;
  hpd_lower : pystr;
  hpd_upper : pystr;
  ess : pystr
}.

(** One entry of [info['taxa']], lines 37-41. *)
Record taxon : Type := Taxon {
  taxon_name : pystr;
  taxon_date : pystr;
  taxon_length : nat
}.

Record fasta_info : Type := FastaInfo {
  num_taxa : nat;
  seq_length : nat;
  taxa : list taxon
}.

Inductive badge : Type := Low | Fair | Good.

(** [x < c] for a float [x] and a finite literal [c]. *)
Definition float_lt (x : pyfloat) (c : Q) : bool :=
  match x with
  | Finite q => negb (Qle_bool c q)
  | PosInf => false
  | NegInf => true
  | NaN => false
  end.

Section Report.

(** The character classes of Python's Unicode tables, [str.isspace] (used
    by [strip] and [split]) and the decimal digits matched by [\d], and
    the builtin [float] applied to a string ([None] when it raises), are
    not part of the repository. *)
Variable isspace : N -> bool.
Variable isdecimal : N -> bool.
Variable float_of : pystr -> option pyfloat.

(** [s.lstrip()], [s.rstrip()] and [s.strip()]. *)
Fixpoint lstrip (s : pystr) : pystr :=
  match s with
  | [] => []
  | c :: r => if isspace c then lstrip r else s
  end.

Definition rstrip (s : pystr) : pystr := rev (lstrip (rev s)).

Definition strip (s : pystr) : pystr := rstrip (lstrip s).

(** [s.split()]: the maximal runs of characters that are not whitespace. *)
Fixpoint split (s : pystr) : list pystr :=
  match s with
  | [] => []
  | c :: r =>
      if isspace c then split r
      else match r with
           | [] => [[c]]
           | c' :: _ =>
               if isspace c' then [c] :: split r
               else match split r with
                    | w :: ws => (c :: w) :: ws
                    | [] => [[c]]
                    end
           end
  end.

(** [line.startswith('#')]. *)
Definition startswith_hash (line : pystr) : bool :=
  match line with
  | c :: _ => N.eqb c 35
  | [] => false
  end.

(** Lines 55-72, one turn of the loop over the lines of the file. *)
Definition parse_line (line : pystr) : list log_row :=
  let line := strip line in
  match line with
  | [] => []
  | _ :: _ =>
      if startswith_hash line then []
      else
        let parts := split line in
        if (5 <=? List.length parts)%nat then
          [LogRow (nth 0 parts []) (nth 1 parts [])
                  (if (2 <? List.length parts)%nat then nth 2 parts [] else lit "-")
                  (if (3 <? List.length parts)%nat then nth 3 parts [] else lit "-")
                  (if (4 <? List.length parts)%nat then nth 4 parts [] else lit "-")
                  (if (5 <? List.length parts)%nat then nth 5 parts [] else lit "-")
                  (if (6 <? List.length parts)%nat then nth 6 parts [] else lit "-")]
        else []
  end.

(** [parse_loganalyser_output], on the lines that [readlines] returned. *)
Definition parse_loganalyser_output (lines : list pystr) : list log_row :=
  flat_map parse_line lines.

(** Lines 305-315: the ESS cell of a row; whatever [float] raises leaves
    the cell as the raw text. *)
Definition badge_of (ess_val : pyfloat) : badge :=
  if float_lt ess_val 200 then Low
  else if float_lt ess_val 500 then Fair
  else Good.

Definition badge_html (b : badge) : pystr :=
  match b with
  | Low => lit " <span class=" ++ [34%N] ++ lit "badge error" ++ [34%N]
           ++ lit ">Low</span>"
  | Fair => lit " <span class=" ++ [34%N] ++ lit "badge warning" ++ [34%N]
            ++ lit ">Fair</span>"
  | Good => lit " <span class=" ++ [34%N] ++ lit "badge" ++ [34%N]
            ++ lit ">Good</span>"
  end.

Definition ess_cell (result : log_row) : pystr :=
  match float_of (ess result) with
  | Some ess_val => ess result ++ badge_html (badge_of ess_val)
  | None => ess result
  end.

(** Lines 33-36.  The pattern [(\d{4}-\d{2}-\d{2}|\d{4})] tried at the
    start of [s]: the full date first, then the bare year. *)
Definition is_hyphen (c : N) : bool := N.eqb c 45.

Definition match_date_here (s : pystr) : option pystr :=
  match s with
  | a :: b :: c :: d :: r =>
      if isdecimal a && isdecimal b && isdecimal c && isdecimal d then
        match r with
        | h1 :: m1 :: m2 :: h2 :: d1 :: d2 :: _ =>
            if is_hyphen h1 && isdecimal m1 && isdecimal m2 &&
               is_hyphen h2 && isdecimal d1 && isdecimal d2
            then Some [a; b; c; d; h1; m1; m2; h2; d1; d2]
            else Some [a; b; c; d]
        | _ => Some [a; b; c; d]
        end
      else None
  | _ => None
  end.

(** [re.search]: the match at the leftmost position that has one. *)
Fixpoint search_date (s : pystr) : option pystr :=
  match match_date_here s with
  | Some m => Some m
  | None =>
      match s with
      | [] => None
      | _ :: r => search_date r
      end
  end.

Definition date_of (seq_id : pystr) : pystr :=
  match search_date seq_id with
  | Some m => m
  | None => lit "Unknown"
  end.

(** [parse_fasta_info], lines 19-43.  [SeqIO] is [None] when Biopython is
    not installed; otherwise its parser returns the records of the file,
    each given here by its [id] and the length of its sequence. *)
Definition parse_fasta_info
    (SeqIO : option (pystr -> list (pystr * nat))) (fasta_file : pystr)
  : option fasta_info :=
  match SeqIO with
  | None => None
  | Some parse =>
      let sequences := parse fasta_file in
      Some (FastaInfo
              (List.length sequences)
              (match sequences with
               | first :: _ => snd first
               | [] => 0%nat
               end)
              (map (fun seq => Taxon (fst seq) (date_of (fst seq)) (snd seq))
                   sequences))
  end.

End Report.

(** Vocabulary for the statements about the report. *)
Fixpoint has_four_decimals (isdecimal : N -> bool) (s : pystr) : bool :=
  match s with
  | a :: r =>
      match r with
      | b :: c :: d :: _ =>
          (isdecimal a && isdecimal b && isdecimal c && isdecimal d)
          || has_four_decimals isdecimal r
      | _ => false
      end
  | [] => false
  end.

(** The first four characters are decimal digits; the first six are
    [-dd-dd]. *)
Definition year_here (isdecimal : N -> bool) (s : pystr) : bool :=
  match s with
  | a :: b :: c :: d :: _ =>
      isdecimal a && isdecimal b && isdecimal c && isdecimal d
  | _ => false
  end.

Definition month_day_here (isdecimal : N -> bool) (s : pystr) : bool :=
  match s with
  | h1 :: m1 :: m2 :: h2 :: d1 :: d2 :: _ =>
      is_hyphen h1 && isdecimal m1 && isdecimal m2 &&
      is_hyphen h2 && isdecimal d1 && isdecimal d2
  | _ => false
  end.

(** [dated isdecimal id d]: [d] is what the pattern of line 33 finds in
    [id].  Either [id] has no four decimal digits in a row and [d] is
    [Unknown]; or [d] stands in [id] at the first place where four decimal
    digits start, and is those four digits, or all ten characters when
    [-dd-dd] follows them. *)
Definition dated (isdecimal : N -> bool) (id d : pystr) : Prop :=
  (has_four_decimals isdecimal id = false /\ d = lit "Unknown") \/
  (exists pre post,
     id = pre ++ d ++ post /\
     (forall k, (k < List.length pre)%nat ->
                year_here isdecimal (skipn k id) = false) /\
     year_here isdecimal d = true /\
     ((List.length d = 10%nat /\
       month_day_here isdecimal (skipn 4 d) = true) \/
      (List.length d = 4%nat /\ month_day_here isdecimal post = false))).

(** A string of nothing but whitespace. *)
Definition spaces (isspace : N -> bool) (s : pystr) : Prop :=
  Forall (fun c => isspace c = true) s.

(** Whitespace of ASCII, for the statements at concrete lines. *)
Definition ascii_space (c : N) : bool :=
  (N.eqb c 32 || (N.leb 9 c && N.leb c 13))%bool.

Definition ascii_digit (c : N) : bool := (N.leb 48 c && N.leb c 57)%bool.

(** * Properties *)

(** ** Lists *)

Lemma filter_flat_map {A B : Type} (f : B -> bool) (g : A -> list B) (l : list A) :
  filter f (flat_map g l) = flat_map (fun x => filter f (g x)) l.
Proof.
  induction l as [|a l IH]; simpl.
  - reflexivity.
  - now rewrite filter_app, IH.
Qed.

Lemma filter_none {A : Type} (f : A -> bool) (l : list A) :
  (forall x, In x l -> f x = false) -> filter f l = [].
Proof.
  induction l as [|a l IH]; simpl; intros H.
  - reflexivity.
  - rewrite (H a (or_introl eq_refl)). apply IH. intros x Hx. apply H. now right.
Qed.

Lemma flat_map_nil {A B : Type} (g : A -> list B) (l : list A) :
  (forall x, In x l -> g x = []) -> flat_map g l = [].
Proof.
  induction l as [|a l IH]; simpl; intros H.
  - reflexivity.
  - rewrite (H a (or_introl eq_refl)). apply IH. intros x Hx. apply H. now right.
Qed.

Lemma flat_map_singletons {A B : Type} (g : A -> B) (l : list A) :
  flat_map (fun x => [g x]) l = map g l.
Proof.
  induction l as [|a l IH]; simpl; [reflexivity | now rewrite IH].
Qed.

Lemma Forall2_In_l {A B : Type} (R : A -> B -> Prop) l l' a :
  Forall2 R l l' -> In a l -> exists b, In b l' /\ R a b.
Proof.
  induction 1 as [|x x' r r' Hx _ IH]; intros Ha.
  - destruct Ha.
  - destruct Ha as [<-|Ha].
    + exists x'. split; [now left | exact Hx].
    + destruct (IH Ha) as [b [Hb Rb]]. exists b. split; [now right | exact Rb].
Qed.

(** ** The object list *)

Lemma objects_from_eq par i n :
  objects_from par i n = Object n par i :: children_objects n 0 (children n).
Proof.
  destruct n as [nm bl tr h a v cs]. simpl. f_equal.
  generalize (Node nm bl tr h a v cs) as p. generalize 0%nat.
  induction cs as [|c r IH]; intros k p; simpl.
  - reflexivity.
  - now rewrite IH.
Qed.

Lemma this_children_objects p k cs :
  Forall (fun c => forall par i, map this (objects_from par i c) = nodes c) cs ->
  map this (children_objects p k cs) = flat_map nodes cs.
Proof.
  intros H. revert k. induction H as [|c r Hc _ IH]; intros k; simpl.
  - reflexivity.
  - now rewrite map_app, Hc, IH.
Qed.

Lemma this_objects_from n : forall par i, map this (objects_from par i n) = nodes n.
Proof.
  induction n as [nm bl tr h a v cs IH] using node_ind. intros par i.
  rewrite objects_from_eq. cbn [map this children nodes]. f_equal.
  now apply this_children_objects.
Qed.

Lemma this_Objects tree : map this (Objects tree) = nodes tree.
Proof. apply this_objects_from. Qed.

Lemma Objects_length tree : List.length (Objects tree) = List.length (nodes tree).
Proof. now rewrite <- this_Objects, length_map. Qed.

(** Below the first entry every object has a parent. *)
Lemma children_objects_parent p k cs o :
  Forall (fun c => forall par i o, In o (objects_from (Some par) i c) ->
                                   parent o <> None) cs ->
  In o (children_objects p k cs) -> parent o <> None.
Proof.
  intros H. revert k. induction H as [|c r Hc _ IH]; intros k; simpl.
  - intros [].
  - rewrite in_app_iff. intros [Ho|Ho]; [now apply (Hc p k) | now apply (IH (S k))].
Qed.

Lemma objects_from_parent n :
  forall par i o, In o (objects_from (Some par) i n) -> parent o <> None.
Proof.
  induction n as [nm bl tr h a v cs IH] using node_ind. intros par i o.
  rewrite objects_from_eq. cbn [children]. intros [<-|Ho].
  - discriminate.
  - revert Ho. now apply children_objects_parent.
Qed.

Lemma Objects_root tree :
  Objects tree = Object tree None 0 :: children_objects tree 0 (children tree) /\
  forall o, In o (children_objects tree 0 (children tree)) -> parent o <> None.
Proof.
  split.
  - apply objects_from_eq.
  - intros o. apply children_objects_parent.
    apply Forall_forall. intros c _ par i. apply objects_from_parent.
Qed.

(** Every child of every node of the tree has an object of its own, whose
    parent reference is that node. *)
Lemma children_objects_child p k cs c :
  In c cs -> exists j, In (Object c (Some p) j) (children_objects p k cs).
Proof.
  revert k. induction cs as [|c' r IH]; intros k; simpl.
  - intros [].
  - intros [->|Hc].
    + exists k. apply in_or_app. left. rewrite objects_from_eq. now left.
    + destruct (IH (S k) Hc) as [j Hj]. exists j. apply in_or_app. now right.
Qed.

Lemma objects_from_child n :
  forall par i p c, In p (nodes n) -> In c (children p) ->
    exists j, In (Object c (Some p) j) (objects_from par i n).
Proof.
  induction n as [nm bl tr h a v cs IH] using node_ind.
  intros par i p c Hp Hc. rewrite objects_from_eq.
  cbn [nodes children] in Hp. destruct Hp as [<-|Hp].
  - destruct (children_objects_child (Node nm bl tr h a v cs) 0 _ c Hc) as [j Hj].
    exists j. now right.
  - apply in_flat_map in Hp. destruct Hp as [d [Hd Hp]].
    rewrite Forall_forall in IH.
    cbn [children].
    assert (G : forall k, exists j,
               In (Object c (Some p) j)
                  (children_objects (Node nm bl tr h a v cs) k cs)).
    { clear - IH Hd Hp Hc. revert IH Hd.
      generalize (Node nm bl tr h a v cs) as q.
      induction cs as [|c' r IHr]; intros q IH Hd k; simpl.
      - destruct Hd.
      - destruct Hd as [->|Hd].
        + destruct (IH d (or_introl eq_refl) (Some q) k p c Hp Hc) as [j Hj].
          exists j. apply in_or_app. now left.
        + destruct (IHr q (fun x Hx => IH x (or_intror Hx)) Hd (S k)) as [j Hj].
          exists j. apply in_or_app. now right. }
    destruct (G 0%nat) as [j Hj]. exists j. now right.
Qed.

(** The parent reference of an object is a node of the tree. *)
Lemma objects_from_parent_in n : forall par i o p,
  In o (objects_from par i n) -> parent o = Some p ->
  o = Object n par i \/ In p (nodes n).
Proof.
  induction n as [nm bl tr h a v cs IH] using node_ind. intros par i o p.
  rewrite objects_from_eq. cbn [children nodes]. intros [<-|Ho] Hp; [now left|].
  right. revert Ho. generalize 0%nat.
  set (q := Node nm bl tr h a v cs). clearbody q.
  induction cs as [|c r IHr]; intros k; cbn [children_objects flat_map].
  - intros [].
  - inversion IH as [|c0 r0 IHc IHr0]; subst c0 r0.
    rewrite in_app_iff. intros [Ho|Ho].
    + destruct (IHc _ _ _ _ Ho Hp) as [->|Hin].
      * cbn [parent] in Hp. injection Hp as <-. now left.
      * right. apply in_or_app. now left.
    + destruct (IHr IHr0 _ Ho) as [E|Hin]; [now left|].
      right. apply in_or_app. now right.
Qed.

Lemma Objects_parent_in tree o p :
  In o (Objects tree) -> parent o = Some p -> In p (nodes tree).
Proof.
  intros Ho Hp. destruct (objects_from_parent_in tree None 0 o p Ho Hp) as [->|H].
  - discriminate.
  - exact H.
Qed.

(** ** Sorting the primitives by kind *)

Lemma draw_support_cases n :
  draw_support n = [] \/
  draw_support n = [SupportMarker (absoluteTime n) (y n) high] \/
  draw_support n = [SupportMarker (absoluteTime n) (y n) medium].
Proof.
  unfold draw_support. destruct (posterior_of n) as [p|]; [|now left].
  destruct (truthy p && float_ge p 0.95); [now right; left|].
  destruct (truthy p && float_ge p 0.75); [now right; right | now left].
Qed.

Lemma draw_object_cases o :
  exists c, draw_object o = branch_of o ++ c /\
            (c = [] \/ exists x lo hi, c = [ConnectorSegment x lo hi]).
Proof.
  unfold draw_object, branch_of. destruct (parent o) as [p|].
  - destruct (sibling_index o =? 0)%nat; [|exists []; now split; [|left]].
    cbv zeta. destruct (1 <? _)%nat; [|exists []; now split; [|left]].
    destruct (py_min _) as [lo|]; [|exists []; now split; [|left]].
    destruct (py_max _) as [hi|]; [|exists []; now split; [|left]].
    exists [ConnectorSegment (absoluteTime p) lo hi]. split; [reflexivity|].
    right. now exists (absoluteTime p), lo, hi.
  - exists []. now split; [|left].
Qed.

Lemma branch_of_kind o : filter is_branch (branch_of o) = branch_of o /\
                         filter is_connector (branch_of o) = [] /\
                         filter is_tip_label (branch_of o) = [] /\
                         filter is_marker (branch_of o) = [].
Proof. unfold branch_of. now destruct (parent o). Qed.

Lemma draw_object_branch o : filter is_branch (draw_object o) = branch_of o.
Proof.
  destruct (draw_object_cases o) as [c [-> Hc]]. rewrite filter_app.
  destruct (branch_of_kind o) as [-> _].
  destruct Hc as [-> | [x [lo [hi ->]]]]; simpl; now rewrite app_nil_r.
Qed.

Lemma draw_object_other o :
  filter is_tip_label (draw_object o) = [] /\ filter is_marker (draw_object o) = [].
Proof.
  destruct (draw_object_cases o) as [c [-> Hc]]. rewrite !filter_app.
  destruct (branch_of_kind o) as [_ [_ [-> ->]]].
  now destruct Hc as [-> | [x [lo [hi ->]]]].
Qed.

Lemma draw_tip_labels_kind tree :
  filter is_tip_label (draw_tip_labels tree) = draw_tip_labels tree /\
  filter is_branch (draw_tip_labels tree) = [] /\
  filter is_connector (draw_tip_labels tree) = [] /\
  filter is_marker (draw_tip_labels tree) = [].
Proof.
  unfold draw_tip_labels. induction (tips tree) as [|a l [IH1 [IH2 [IH3 IH4]]]]; simpl.
  - repeat split.
  - now rewrite IH1, IH2, IH3, IH4.
Qed.

Lemma draw_supports_kind tree :
  filter is_marker (draw_supports tree) = draw_supports tree /\
  filter is_branch (draw_supports tree) = [] /\
  filter is_connector (draw_supports tree) = [] /\
  filter is_tip_label (draw_supports tree) = [].
Proof.
  unfold draw_supports.
  induction (getInternal tree) as [|a l [IH1 [IH2 [IH3 IH4]]]]; simpl.
  - repeat split.
  - rewrite !filter_app, IH1, IH2, IH3, IH4.
    now destruct (draw_support_cases a) as [-> | [-> | ->]].
Qed.

Lemma primitives_branches tree :
  filter is_branch (primitives tree) = flat_map branch_of (Objects tree).
Proof.
  unfold primitives, draw_branches. rewrite !filter_app, filter_flat_map.
  destruct (draw_tip_labels_kind tree) as [_ [-> _]].
  destruct (draw_supports_kind tree) as [_ [-> _]].
  rewrite !app_nil_r. apply flat_map_ext. intros o. apply draw_object_branch.
Qed.

Lemma primitives_connectors tree :
  filter is_connector (primitives tree) =
  flat_map (fun o => filter is_connector (draw_object o)) (Objects tree).
Proof.
  unfold primitives, draw_branches. rewrite !filter_app, filter_flat_map.
  destruct (draw_tip_labels_kind tree) as [_ [_ [-> _]]].
  destruct (draw_supports_kind tree) as [_ [_ [-> _]]].
  now rewrite !app_nil_r.
Qed.

Lemma primitives_tip_labels tree :
  filter is_tip_label (primitives tree) = draw_tip_labels tree.
Proof.
  unfold primitives, draw_branches. rewrite !filter_app, filter_flat_map.
  destruct (draw_tip_labels_kind tree) as [-> _].
  destruct (draw_supports_kind tree) as [_ [_ [_ ->]]].
  rewrite flat_map_nil; [now rewrite app_nil_r|].
  intros o _. apply draw_object_other.
Qed.

Lemma primitives_markers tree :
  filter is_marker (primitives tree) = draw_supports tree.
Proof.
  unfold primitives, draw_branches. rewrite !filter_app, filter_flat_map.
  destruct (draw_tip_labels_kind tree) as [_ [_ [_ ->]]].
  destruct (draw_supports_kind tree) as [-> _].
  rewrite flat_map_nil; [reflexivity|].
  intros o _. apply draw_object_other.
Qed.

(** ** Branch segments *)

Lemma branches_below_root tree :
  flat_map branch_of (Objects tree) =
  flat_map branch_of (children_objects tree 0 (children tree)) /\
  List.length (flat_map branch_of (children_objects tree 0 (children tree))) =
  List.length (children_objects tree 0 (children tree)).
Proof.
  destruct (Objects_root tree) as [E H]. rewrite E. split; [reflexivity|].
  clear E. revert H. generalize (children_objects tree 0 (children tree)) as l.
  induction l as [|o l IH]; intros H; simpl.
  - reflexivity.
  - rewrite length_app, IH by (intros x Hx; apply H; now right).
    specialize (H o (or_introl eq_refl)). unfold branch_of.
    destruct (parent o); [reflexivity | contradiction].
Qed.

(** C4.  Each child [n] of each node [p] of the tree has its horizontal
    segment from [(p.absoluteTime, n.y)] to [(n.absoluteTime, n.y)] among
    the primitives; the branch segments are, in order, exactly one per
    object with a parent, so there is one fewer of them than nodes; the
    root has none, and a tree of a single node yields no branch segment. *)
Theorem branch_segment_per_child (tree : node) :
  (forall p n, In p (nodes tree) -> In n (children p) ->
     In (BranchSegment (absoluteTime p) (y n) (absoluteTime n)) (primitives tree)) /\
  filter is_branch (primitives tree) = flat_map branch_of (Objects tree) /\
  branch_of (Object tree None 0) = [] /\
  List.length (filter is_branch (primitives tree)) =
    (List.length (nodes tree) - 1)%nat /\
  (children tree = [] -> filter is_branch (primitives tree) = []).
Proof.
  pose proof (primitives_branches tree) as E.
  destruct (branches_below_root tree) as [E1 E2].
  repeat split.
  - intros p n Hp Hn.
    destruct (objects_from_child tree None 0 p n Hp Hn) as [j Hj].
    assert (G : In (BranchSegment (absoluteTime p) (y n) (absoluteTime n))
                   (filter is_branch (primitives tree))).
    { rewrite E. apply in_flat_map. exists (Object n (Some p) j). split.
      - exact Hj.
      - now left. }
    apply filter_In in G. apply G.
  - exact E.
  - rewrite E, E1, E2, <- Objects_length.
    destruct (Objects_root tree) as [-> _]. simpl. lia.
  - intros Hc. rewrite E, E1, Hc. reflexivity.
Qed.

(** ** Minimum and maximum of a list *)

Lemma Qmin_pick x a : Qmin x a = x \/ Qmin x a = a.
Proof.
  unfold Qmin, GenericMinMax.gmin. destruct (x ?= a); auto.
Qed.

Lemma Qmax_pick x a : Qmax x a = x \/ Qmax x a = a.
Proof.
  unfold Qmax, GenericMinMax.gmax. destruct (x ?= a); auto.
Qed.

Lemma fold_min_least r : forall x, least (fold_left Qmin r x) (x :: r).
Proof.
  induction r as [|a r IH]; intros x; simpl.
  - split; [now left|]. intros z [<-|[]]. apply Qle_refl.
  - destruct (IH (Qmin x a)) as [Hin Hle]. split.
    + destruct Hin as [E|Hin]; [|now right; right].
      rewrite <- E. destruct (Qmin_pick x a) as [->| ->]; [now left | now right; left].
    + intros z [<-|[<-|Hz]].
      * eapply Qle_trans; [apply Hle; now left | apply Q.le_min_l].
      * eapply Qle_trans; [apply Hle; now left | apply Q.le_min_r].
      * apply Hle. now right.
Qed.

Lemma fold_max_greatest r : forall x, greatest (fold_left Qmax r x) (x :: r).
Proof.
  induction r as [|a r IH]; intros x; simpl.
  - split; [now left|]. intros z [<-|[]]. apply Qle_refl.
  - destruct (IH (Qmax x a)) as [Hin Hle]. split.
    + destruct Hin as [E|Hin]; [|now right; right].
      rewrite <- E. destruct (Qmax_pick x a) as [->| ->]; [now left | now right; left].
    + intros z [<-|[<-|Hz]].
      * eapply Qle_trans; [apply Q.le_max_l | apply Hle; now left].
      * eapply Qle_trans; [apply Q.le_max_r | apply Hle; now left].
      * apply Hle. now right.
Qed.

Lemma py_min_least l : l <> [] -> exists m, py_min l = Some m /\ least m l.
Proof.
  destruct l as [|x r]; [congruence|]. intros _.
  exists (fold_left Qmin r x). split; [reflexivity | apply fold_min_least].
Qed.

Lemma py_max_greatest l : l <> [] -> exists m, py_max l = Some m /\ greatest m l.
Proof.
  destruct l as [|x r]; [congruence|]. intros _.
  exists (fold_left Qmax r x). split; [reflexivity | apply fold_max_greatest].
Qed.

(** ** Connector segments *)

(** The connector drawn while visiting an object belongs to its parent and
    is drawn at the parent's first child only. *)
Lemma draw_object_connector c p k :
  filter is_connector (draw_object (Object c (Some p) k)) =
  if (k =? 0)%nat then connector_of p else [].
Proof.
  unfold draw_object, connector_of. cbn [parent this sibling_index].
  destruct (k =? 0)%nat; [|reflexivity]. cbv zeta.
  destruct (children p) as [|c1 [|c2 r]]; reflexivity.
Qed.

Lemma connectors_children p cs :
  Forall (fun c => forall par i,
            flat_map (fun o => filter is_connector (draw_object o))
                     (objects_from par i c) =
            filter is_connector (draw_object (Object c par i)) ++
            flat_map connector_of (nodes c)) cs ->
  forall k,
    flat_map (fun o => filter is_connector (draw_object o))
             (children_objects p k cs) =
    (if (k =? 0)%nat then match cs with [] => [] | _ :: _ => connector_of p end
     else []) ++
    flat_map connector_of (flat_map nodes cs).
Proof.
  induction 1 as [|c r Hc _ IH]; intros k; simpl.
  - now destruct (k =? 0)%nat.
  - rewrite flat_map_app, Hc, IH, draw_object_connector, flat_map_app.
    cbn [Nat.eqb app]. now rewrite <- app_assoc.
Qed.

Lemma connectors_from n : forall par i,
  flat_map (fun o => filter is_connector (draw_object o)) (objects_from par i n) =
  filter is_connector (draw_object (Object n par i)) ++
  flat_map connector_of (nodes n).
Proof.
  induction n as [nm bl tr h a v cs IH] using node_ind. intros par i.
  rewrite objects_from_eq. cbn [flat_map nodes children]. f_equal.
  rewrite (connectors_children _ cs IH). cbn [Nat.eqb]. f_equal.
  now destruct cs.
Qed.

(** C2.  The connector segments among the primitives are, in pre-order,
    exactly what [connector_of] owes to each node of the tree: nothing for
    a node with one child (or none), and for a node with two or more
    children one segment at the node's [absoluteTime] running from the
    least to the greatest [y] of its immediate children. *)
Theorem connector_per_fork (tree : node) :
  filter is_connector (primitives tree) = flat_map connector_of (nodes tree) /\
  (forall n, (List.length (children n) <= 1)%nat -> connector_of n = []) /\
  (forall n, (2 <= List.length (children n))%nat ->
     exists lo hi,
       connector_of n = [ConnectorSegment (absoluteTime n) lo hi] /\
       least lo (map y (children n)) /\
       greatest hi (map y (children n))).
Proof.
  repeat split.
  - rewrite primitives_connectors. unfold Objects. rewrite connectors_from.
    reflexivity.
  - intros n Hn. unfold connector_of.
    destruct (children n) as [|c1 [|c2 r]]; try reflexivity. simpl in Hn. lia.
  - intros n Hn. unfold connector_of.
    destruct (children n) as [|c1 [|c2 r]]; simpl in Hn; try lia.
    exists (fold_left Qmin (map y (c2 :: r)) (y c1)),
           (fold_left Qmax (map y (c2 :: r)) (y c1)).
    split; [reflexivity|]. split.
    + apply (fold_min_least (map y (c2 :: r)) (y c1)).
    + apply (fold_max_greatest (map y (c2 :: r)) (y c1)).
Qed.

(** ** Support markers *)

Lemma float_ge_at_least x c : float_ge x c = true <-> at_least x c.
Proof.
  destruct x as [q| | |]; simpl; try (split; [discriminate | intros []]).
  - apply Qle_bool_iff.
  - split; auto.
Qed.

Lemma at_least_truthy x c : 0 < c -> at_least x c -> truthy x = true.
Proof.
  destruct x as [q| | |]; simpl; intros Hc Hx; try reflexivity.
  apply negb_true_iff. destruct (Qeq_bool q 0) eqn:E; [|reflexivity].
  apply Qeq_bool_iff in E. rewrite E in Hx. exfalso.
  apply (Qlt_irrefl 0). eapply Qlt_le_trans; eassumption.
Qed.

Lemma below_not_at_least x c d : c <= d -> below x c -> ~ at_least x d.
Proof.
  destruct x as [q| | |]; simpl; intros Hcd Hx Hd; auto.
  apply (Qlt_irrefl q). eapply Qlt_le_trans; [exact Hx|].
  eapply Qle_trans; eassumption.
Qed.

Lemma not_at_least_below x c d : at_least x c -> ~ at_least x d -> below x d.
Proof.
  destruct x as [q| | |]; simpl; intros Hc Hd; auto.
  now apply Qnot_le_lt.
Qed.

(** What the two guards of lines 98 and 101 amount to. *)
Lemma guard_at_least x c :
  0 < c -> (truthy x && float_ge x c = true <-> at_least x c).
Proof.
  intros Hc. rewrite andb_true_iff, float_ge_at_least. split.
  - now intros [_ H].
  - intros H. split; [now apply (at_least_truthy x c) | exact H].
Qed.

Lemma draw_support_high n :
  draw_support n = [SupportMarker (absoluteTime n) (y n) high] <->
  exists p, posterior_of n = Some p /\ at_least p 0.95.
Proof.
  unfold draw_support. destruct (posterior_of n) as [p|].
  - destruct (truthy p && float_ge p 0.95) eqn:E1.
    + split; [|reflexivity]. intros _. exists p. split; [reflexivity|].
      now apply guard_at_least in E1.
    + split.
      * destruct (truthy p && float_ge p 0.75); discriminate.
      * intros [p' [[= <-] H]]. apply guard_at_least in H; [congruence | reflexivity].
  - split; [discriminate | now intros [p [? _]]].
Qed.

Lemma draw_support_medium n :
  draw_support n = [SupportMarker (absoluteTime n) (y n) medium] <->
  exists p, posterior_of n = Some p /\ at_least p 0.75 /\ below p 0.95.
Proof.
  unfold draw_support. destruct (posterior_of n) as [p|].
  - destruct (truthy p && float_ge p 0.95) eqn:E1.
    + split; [discriminate|]. intros [p' [[= <-] [_ H]]].
      apply guard_at_least in E1; [|reflexivity].
      exfalso. revert E1. apply (below_not_at_least p 0.95 0.95); [apply Qle_refl | exact H].
    + assert (N : ~ at_least p 0.95).
      { intros H. apply guard_at_least in H; [congruence | reflexivity]. }
      destruct (truthy p && float_ge p 0.75) eqn:E2.
      * split; [|reflexivity]. intros _. exists p. split; [reflexivity|].
        apply guard_at_least in E2; [|reflexivity].
        split; [exact E2 | now apply (not_at_least_below p 0.75)].
      * split; [discriminate|]. intros [p' [[= <-] [H _]]].
        apply guard_at_least in H; [congruence | reflexivity].
  - split; [discriminate | now intros [p [? _]]].
Qed.



(** ** Sorting the tips *)

Lemma insert_by_perm key x l : Permutation (insert_by key x l) (x :: l).
Proof.
  induction l as [|h r IH]; simpl.
  - apply Permutation_refl.
  - destruct (Qle_bool (key x) (key h)).
    + apply Permutation_refl.
    + eapply perm_trans; [apply perm_skip, IH | apply perm_swap].
Qed.

Lemma sorted_perm key l : Permutation (sorted key l) l.
Proof.
  induction l as [|x l IH]; simpl.
  - apply perm_nil.
  - eapply perm_trans; [apply insert_by_perm | apply perm_skip, IH].
Qed.

Lemma sorted_length key l : List.length (sorted key l) = List.length l.
Proof. apply Permutation_length, sorted_perm. Qed.

(** ** Axis limits *)

(** C8.  With [lo] the least and [hi] the greatest [absoluteTime] over all
    nodes, the horizontal limits are [lo - (hi - lo) * 0.05] and
    [hi + (hi - lo) * 0.3]; the vertical limits are [-0.5] and the number
    of leaves minus [0.5]. *)
Theorem axis_limits (tree : node) :
  exists lo hi,
    least lo (map absoluteTime (nodes tree)) /\
    greatest hi (map absoluteTime (nodes tree)) /\
    xlim tree = Some (lo - (hi - lo) * 0.05, hi + (hi - lo) * 0.3) /\
    ylim tree =
      (- 0.5, inject_Z (Z.of_nat (List.length (getExternal tree))) - 0.5).
Proof.
  unfold xlim, ylim, tips. rewrite this_Objects, sorted_length.
  assert (N : map absoluteTime (nodes tree) <> []) by (now destruct tree).
  destruct (py_min_least _ N) as [lo [-> Hlo]].
  destruct (py_max_greatest _ N) as [hi [-> Hhi]].
  exists lo, hi. repeat split; try apply Hlo; try apply Hhi.
Qed.

(** ** Loading *)

(** C6, as the code has it.  The Nexus parser is tried first and the
    Newick parser only after it has raised; the first success wins.  When
    both fail nothing is aggregated: the first failure is dropped, the
    message of the second is written to stderr behind
    ["Error loading tree: "] and the process exits with status 1, unless
    the second failure lies outside [Exception], which leaves the function
    as it is. *)
Theorem load_first_success_or_exit
    (loadNexus loadNewick : string -> parse) (tree_file : string) :
  (forall t, loadNexus tree_file = Parsed t ->
     load_tree loadNexus loadNewick tree_file = Loaded t) /\
  (forall e t, loadNexus tree_file = Failed e -> loadNewick tree_file = Parsed t ->
     load_tree loadNexus loadNewick tree_file = Loaded t) /\
  (forall e1 msg, loadNexus tree_file = Failed e1 ->
     loadNewick tree_file = Failed (Exception msg) ->
     plot_timetree loadNexus loadNewick tree_file =
       Exit 1 (String.append "Error loading tree: " msg)) /\
  (forall e1 msg, loadNexus tree_file = Failed e1 ->
     loadNewick tree_file = Failed (BaseException msg) ->
     plot_timetree loadNexus loadNewick tree_file = Uncaught (BaseException msg)).
Proof.
  unfold plot_timetree, load_tree. repeat split.
  - intros t ->. reflexivity.
  - intros e t -> ->. reflexivity.
  - intros e1 msg -> ->. reflexivity.
  - intros e1 msg -> ->. reflexivity.
Qed.

(** ** Time propagation *)

Lemma traverse_eq h n :
  traverse h n =
  match checked_length (branch_length n) with
  | None => Raise InvalidBranchLengthError
  | Some _ =>
      cs <- traverse_children h (children n) ;;
      Ok (Node (name n) (branch_length n) (traits n) h (absoluteTime n) (y n) cs)
  end.
Proof.
  destruct n as [nm bl tr h0 a v cs].
  cbn [traverse children branch_length name traits absoluteTime y].
  destruct (checked_length bl); [|reflexivity].
  match goal with
  | |- bind ?a _ = bind ?b _ => assert (E : a = b); [|now rewrite E]
  end.
  induction cs as [|c r IH]; cbn [traverse_children]; [reflexivity | now rewrite IH].
Qed.

Lemma traverse_children_ok h l : forall l',
  traverse_children h l = Ok l' <->
  Forall2 (fun c c' => traverse (h + length_of c) c = Ok c') l l'.
Proof.
  induction l as [|c r IH]; intros l'; cbn [traverse_children].
  - split.
    + intros [= <-]. constructor.
    + intros H. inversion H. reflexivity.
  - split.
    + destruct (traverse (h + length_of c) c) as [c'|e] eqn:Ec; [|discriminate].
      destruct (traverse_children h r) as [r'|e] eqn:Er; [|discriminate].
      cbn [bind]. intros [= <-]. constructor; [exact Ec | now apply IH].
    + intros H. inversion H as [|c0 c' r0 r' Hc Hr]; subst.
      rewrite Hc. apply IH in Hr. rewrite Hr. reflexivity.
Qed.

Lemma traverse_children_raise h l e :
  traverse_children h l = Raise e ->
  exists c, In c l /\ traverse (h + length_of c) c = Raise e.
Proof.
  induction l as [|c r IH]; cbn [traverse_children]; [discriminate|].
  destruct (traverse (h + length_of c) c) as [c'|e1] eqn:Ec.
  - destruct (traverse_children h r) as [r'|e2] eqn:Er; [discriminate|].
    cbn [bind]. intros [= <-]. destruct (IH eq_refl) as [d [Hd Ed]].
    exists d. split; [now right | exact Ed].
  - cbn [bind]. intros [= <-]. exists c. split; [now left | exact Ec].
Qed.

Lemma traverse_children_total h l :
  (forall c, In c l -> exists c', traverse (h + length_of c) c = Ok c') ->
  exists l', traverse_children h l = Ok l'.
Proof.
  induction l as [|c r IH]; intros H; cbn [traverse_children].
  - now exists [].
  - destruct (H c (or_introl eq_refl)) as [c' ->].
    destruct IH as [r' ->]; [intros d Hd; apply H; now right|].
    now exists (c' :: r').
Qed.

(** The only failure of the traversal is [InvalidBranchLengthError]. *)
Lemma traverse_raise n : forall h e,
  traverse h n = Raise e -> e = InvalidBranchLengthError.
Proof.
  induction n as [nm bl tr h0 a v cs IH] using node_ind. intros h e.
  rewrite traverse_eq. cbn [children branch_length].
  destruct (checked_length bl); [|now intros [= <-]].
  destruct (traverse_children h cs) as [cs'|e1] eqn:E; [discriminate|].
  cbn [bind]. intros [= <-].
  destruct (traverse_children_raise _ _ _ E) as [c [Hc Ec]].
  rewrite Forall_forall in IH. exact (IH c Hc _ _ Ec).
Qed.

(** A rejected length anywhere in the tree stops the traversal. *)
Lemma traverse_rejects n : forall h m,
  In m (nodes n) -> checked_length (branch_length m) = None ->
  traverse h n = Raise InvalidBranchLengthError.
Proof.
  induction n as [nm bl tr h0 a v cs IH] using node_ind. intros h m Hm Em.
  rewrite traverse_eq. cbn [children branch_length].
  cbn [nodes children] in Hm. destruct Hm as [<-|Hm].
  - cbn [branch_length] in Em. now rewrite Em.
  - destruct (checked_length bl); [|reflexivity].
    destruct (traverse_children h cs) as [cs'|e1] eqn:E.
    + exfalso. apply traverse_children_ok in E.
      apply in_flat_map in Hm. destruct Hm as [c [Hc Hm]].
      rewrite Forall_forall in IH.
      destruct (Forall2_In_l _ _ _ _ E Hc) as [c' [_ Ec]]. cbv beta in Ec.
      rewrite (IH c Hc _ m Hm Em) in Ec. discriminate.
    + destruct (traverse_children_raise _ _ _ E) as [c [Hc Ec]].
      rewrite Forall_forall in IH.
      now rewrite (traverse_raise c _ _ Ec).
Qed.

(** With every length accepted the traversal returns a tree. *)
Lemma traverse_total n : forall h,
  (forall m, In m (nodes n) -> checked_length (branch_length m) <> None) ->
  exists n', traverse h n = Ok n'.
Proof.
  induction n as [nm bl tr h0 a v cs IH] using node_ind. intros h H.
  rewrite traverse_eq. cbn [children branch_length name traits absoluteTime y].
  pose proof (H _ (or_introl eq_refl)) as Hn. cbn [branch_length] in Hn.
  destruct (checked_length bl) as [q|]; [|congruence].
  destruct (traverse_children_total h cs) as [cs' ->].
  - intros c Hc. rewrite Forall_forall in IH. apply (IH c Hc).
    intros m Hm. apply H. right. cbn [children]. apply in_flat_map. now exists c.
  - eexists. reflexivity.
Qed.

Lemma Forall_Forall2_diag {A : Type} (R : A -> A -> Prop) l :
  Forall (fun x => R x x) l -> Forall2 R l l.
Proof. induction 1; constructor; assumption. Qed.

Lemma map_fixed {A : Type} (f : A -> A) l :
  (forall x, In x l -> f x = x) -> map f l = l.
Proof.
  intros H. rewrite <- (map_id l) at 2. apply map_ext_in. exact H.
Qed.

Lemma filter_map_comm {A B : Type} (f : B -> bool) (g : A -> B) l :
  filter f (map g l) = map g (filter (fun x => f (g x)) l).
Proof.
  induction l as [|a l IH]; simpl; [reflexivity|].
  destruct (f (g a)); simpl; now rewrite IH.
Qed.

(** What a successful traversal returns. *)
Lemma traverse_traversed n : forall h n',
  traverse h n = Ok n' ->
  traversed h n' /\ shape_of n' = shape_of n /\
  branch_length n' = branch_length n /\
  map branch_length (nodes n') = map branch_length (nodes n).
Proof.
  induction n as [nm bl tr h0 a v cs IH] using node_ind. intros h n'.
  rewrite traverse_eq. cbn [children branch_length name traits absoluteTime y].
  destruct (checked_length bl) as [q|] eqn:Eq; [|discriminate].
  destruct (traverse_children h cs) as [cs'|e] eqn:E; [|discriminate].
  cbn [bind]. intros [= <-]. apply traverse_children_ok in E.
  assert (G : Forall (fun c => traversed (h + length_of c) c) cs' /\
              map shape_of cs' = map shape_of cs /\
              map branch_length (flat_map nodes cs') =
              map branch_length (flat_map nodes cs)).
  { clear Eq. induction E as [|c c' r r' Hc _ IHr].
    - now repeat split.
    - inversion IH as [|c0 r0 IHc IHr0]; subst.
      destruct (IHc _ _ Hc) as [T [S [B N]]].
      destruct (IHr IHr0) as [Tr [Sr Nr]].
      repeat split.
      + constructor; [|exact Tr]. unfold length_of at 1. rewrite B. exact T.
      + cbn [map]. now rewrite S, Sr.
      + cbn [flat_map]. now rewrite !map_app, N, Nr. }
  destruct G as [T [S N]]. split; [|split; [|split]].
  - constructor; cbn [height branch_length children]; [reflexivity| |exact T].
    rewrite Eq. discriminate.
  - cbn [shape_of children]. now rewrite S.
  - reflexivity.
  - cbn [nodes children map branch_length]. now rewrite N.
Qed.

(** Traversing a traversed tree changes nothing. *)
Lemma traversed_traverse n : forall h, traversed h n -> traverse h n = Ok n.
Proof.
  induction n as [nm bl tr h0 a v cs IH] using node_ind. intros h T.
  inversion T as [h' n' Hh Hl Hc]; subst h' n'.
  cbn [height branch_length children] in Hh, Hl, Hc.
  rewrite traverse_eq. cbn [children branch_length name traits absoluteTime y].
  destruct (checked_length bl) as [q|]; [|congruence].
  assert (E : traverse_children h cs = Ok cs).
  { apply traverse_children_ok. apply Forall_Forall2_diag.
    rewrite Forall_forall in *. intros c Hin. apply (IH c Hin), (Hc c Hin). }
  rewrite E. cbn [bind]. now rewrite Hh.
Qed.

(** ** Leaves *)

Lemma leaves_eq n :
  leaves n = match children n with
             | [] => [n]
             | _ :: _ => flat_map leaves (children n)
             end.
Proof.
  unfold leaves at 1. destruct n as [nm bl tr h a v cs].
  cbn [nodes children filter]. rewrite filter_flat_map.
  unfold is_leaf at 1. cbn [children]. destruct cs; reflexivity.
Qed.

Lemma leaves_nonempty n : leaves n <> [].
Proof.
  induction n as [nm bl tr h a v cs IH] using node_ind.
  rewrite leaves_eq. cbn [children]. destruct cs as [|c r]; [discriminate|].
  cbn [flat_map]. inversion IH as [|c0 r0 Hc _]; subst.
  destruct (leaves c); [contradiction | discriminate].
Qed.

Lemma getExternal_leaves tree : getExternal tree = leaves tree.
Proof. unfold getExternal, leaves. now rewrite this_Objects. Qed.

Lemma tree_height_ok tree :
  exists H, tree_height tree = Ok H /\
            greatest H (map height (leaves tree)).
Proof.
  unfold tree_height. rewrite getExternal_leaves.
  destruct (py_max_greatest (map height (leaves tree))) as [H [-> G]].
  - pose proof (leaves_nonempty tree). now destruct (leaves tree).
  - now exists H.
Qed.

(** ** Placing the nodes in time *)

Lemma nodes_place d H n : nodes (place d H n) = map (place d H) (nodes n).
Proof.
  induction n as [nm bl tr h a v cs IH] using node_ind.
  cbn [place nodes children map name branch_length traits height y]. f_equal.
  induction IH as [|c r Hc _ IHr]; cbn [map flat_map]; [reflexivity|].
  now rewrite map_app, Hc, IHr.
Qed.

Lemma is_leaf_place d H n : is_leaf (place d H n) = is_leaf n.
Proof. destruct n as [nm bl tr h a v cs]. now destruct cs. Qed.

Lemma height_place d H n : height (place d H n) = height n.
Proof. now destruct n. Qed.

Lemma length_of_place d H n : length_of (place d H n) = length_of n.
Proof. now destruct n. Qed.

Lemma leaves_place d H n : leaves (place d H n) = map (place d H) (leaves n).
Proof.
  unfold leaves. rewrite nodes_place, filter_map_comm. f_equal.
  apply filter_ext. intros m. apply is_leaf_place.
Qed.

Lemma tree_height_place d H n : tree_height (place d H n) = tree_height n.
Proof.
  unfold tree_height. rewrite !getExternal_leaves, leaves_place, map_map.
  now rewrite (map_ext _ height (height_place d H)).
Qed.

Lemma shape_place d H n : shape_of (place d H n) = shape_of n.
Proof.
  induction n as [nm bl tr h a v cs IH] using node_ind.
  cbn [place shape_of children]. f_equal. rewrite map_map.
  apply map_ext_in. rewrite Forall_forall in IH. exact IH.
Qed.

Lemma traversed_place d H n : forall h, traversed h n -> traversed h (place d H n).
Proof.
  induction n as [nm bl tr h0 a v cs IH] using node_ind. intros h T.
  inversion T as [h' n' Hh Hl Hc]; subst h' n'.
  cbn [height branch_length children] in Hh, Hl, Hc.
  constructor; cbn [place height branch_length children]; [exact Hh | exact Hl |].
  apply Forall_map. rewrite Forall_forall in *. intros c Hin.
  rewrite length_of_place. apply (IH c Hin), (Hc c Hin).
Qed.

Lemma placed_place d H n : placed d H (place d H n).
Proof.
  unfold placed. rewrite nodes_place. apply Forall_map, Forall_forall.
  intros m _. now destruct m.
Qed.

(** Placing a placed tree again changes nothing. *)
Lemma placed_fixed d H n : placed d H n -> place d H n = n.
Proof.
  unfold placed. induction n as [nm bl tr h a v cs IH] using node_ind.
  cbn [nodes children]. intros P. inversion P as [|m l Pm Pl]; subst.
  cbn [absoluteTime height] in Pm.
  cbn [place name branch_length traits height y children]. rewrite <- Pm.
  f_equal. apply map_fixed. intros c Hin. rewrite Forall_forall in IH.
  apply (IH c Hin). rewrite Forall_forall in *. intros m Hm. apply Pl.
  apply in_flat_map. now exists c.
Qed.

Lemma branch_lengths_place d H n :
  map branch_length (nodes (place d H n)) = map branch_length (nodes n).
Proof.
  rewrite nodes_place, map_map. apply map_ext. intros m. now destruct m.
Qed.

(** ** Time propagation as a whole *)

Lemma rejected_iff l : checked_length l = None <-> rejected l.
Proof.
  destruct l as [[q| | |]|]; simpl; try (split; [auto | reflexivity]).
  - destruct (Qle_bool 0 q) eqn:E.
    + apply Qle_bool_iff in E. split; [discriminate|].
      intros H. exfalso. apply (Qlt_irrefl q). eapply Qlt_le_trans; eassumption.
    + split; [intros _ | reflexivity]. apply Qnot_le_lt. intros H.
      apply Qle_bool_iff in H. congruence.
  - split; [discriminate | intros []].
Qed.

Lemma time_propagation_inv tree t :
  time_propagation tree = Ok t ->
  exists t1 H, traverse 0 tree = Ok t1 /\ tree_height t1 = Ok H /\
               treeStats tree = Ok (t1, H) /\ t = place H H t1.
Proof.
  unfold time_propagation, treeStats, setAbsoluteTime, traverse_tree.
  destruct (traverse 0 tree) as [t1|e]; [|discriminate]. cbn [bind].
  destruct (tree_height t1) as [H|e] eqn:EH; [|discriminate]. cbn [bind fst snd].
  rewrite EH. cbn [bind]. intros [= <-]. now exists t1, H.
Qed.

Lemma time_propagation_of_traverse tree t1 :
  traverse 0 tree = Ok t1 ->
  exists H, tree_height t1 = Ok H /\ time_propagation tree = Ok (place H H t1).
Proof.
  intros E. destruct (tree_height_ok t1) as [H [EH _]]. exists H.
  split; [exact EH|].
  unfold time_propagation, treeStats, setAbsoluteTime, traverse_tree.
  rewrite E. cbn [bind]. rewrite EH. cbn [bind fst snd]. now rewrite EH.
Qed.

(** In a traversed tree every object with a parent lies at the parent's
    cumulative distance plus its own branch length. *)
Lemma traversed_objects n : forall h par i,
  traversed h n ->
  (forall p, par = Some p -> h = height p + length_of n) ->
  forall o p, In o (objects_from par i n) -> parent o = Some p ->
              height (this o) = height p + length_of (this o).
Proof.
  induction n as [nm bl tr h0 a v cs IH] using node_ind.
  intros h par i T Hpar o p. inversion T as [h' n' Hh Hl Hc]; subst h' n'.
  rewrite objects_from_eq. cbn [children] in *. intros [<-|Ho] Hp.
  - cbn [this parent] in *. rewrite Hh. now apply Hpar.
  - revert Ho. generalize 0%nat.
    set (q := Node nm bl tr h0 a v cs) in *.
    assert (Hq : height q = h) by exact Hh. clearbody q.
    induction cs as [|c r IHr]; intros k; cbn [children_objects].
    + intros [].
    + inversion IH as [|c0 r0 IHc IHr0]; subst c0 r0.
      inversion Hc as [|c1 r1 Tc Tr]; subst c1 r1.
      rewrite in_app_iff. intros [Ho|Ho].
      * apply (IHc (h + length_of c) (Some q) k Tc); [|exact Ho | exact Hp].
        intros p' [= <-]. now rewrite Hq.
      * now apply (IHr IHr0 Tr (S k)).
Qed.






(** What time propagation returns when no length is rejected. *)
Lemma time_propagation_result (tree : node) :
  (forall n, In n (nodes tree) -> ~ rejected (branch_length n)) ->
  exists t1 H,
    traverse 0 tree = Ok t1 /\ tree_height t1 = Ok H /\
    time_propagation tree = Ok (place H H t1) /\
    traversed 0 (place H H t1) /\
    forall n, In n (nodes (place H H t1)) -> absoluteTime n == height n.
Proof.
  intros Hok.
  destruct (traverse_total tree 0) as [t1 E1].
  { intros m Hm Hc. apply rejected_iff in Hc. exact (Hok m Hm Hc). }
  destruct (time_propagation_of_traverse _ _ E1) as [H [EH ET]].
  destruct (traverse_traversed _ _ _ E1) as [T _].
  exists t1, H. repeat (split; [assumption|]). split.
  - now apply traversed_place.
  - intros n Hn. pose proof (placed_place H H t1) as P. unfold placed in P.
    rewrite Forall_forall in P. rewrite (P n Hn). ring.
Qed.





Lemma time_propagation_rejects tree n :
  In n (nodes tree) -> rejected (branch_length n) ->
  time_propagation tree = Raise InvalidBranchLengthError /\
  layout_passes tree = Raise InvalidBranchLengthError.
Proof.
  intros Hn Hr. apply rejected_iff in Hr.
  pose proof (traverse_rejects tree 0 n Hn Hr) as E.
  assert (T : time_propagation tree = Raise InvalidBranchLengthError).
  { unfold time_propagation, treeStats, traverse_tree. now rewrite E. }
  split; [exact T|]. unfold layout_passes. now rewrite T.
Qed.

(** C7.  A negative, infinite or NaN branch length anywhere in the tree
    makes time propagation, and with it the whole run, end in
    [InvalidBranchLengthError] with no tree and no primitive returned.
    Without such a length the propagation succeeds, and a node whose
    branch length is missing lies at the cumulative distance and at the
    time of its parent. *)
Theorem invalid_branch_length_aborts (tree : node) :
  ((exists n, In n (nodes tree) /\ rejected (branch_length n)) ->
     time_propagation tree = Raise InvalidBranchLengthError /\
     layout_passes tree = Raise InvalidBranchLengthError /\
     forall loadNexus loadNewick tree_file,
       load_tree loadNexus loadNewick tree_file = Loaded tree ->
       plot_timetree loadNexus loadNewick tree_file =
         Fails InvalidBranchLengthError) /\
  ((forall n, In n (nodes tree) -> ~ rejected (branch_length n)) ->
     exists t,
       time_propagation tree = Ok t /\
       map branch_length (nodes t) = map branch_length (nodes tree) /\
       forall o p, In o (Objects t) -> parent o = Some p ->
         branch_length (this o) = None ->
         height (this o) == height p /\
         absoluteTime (this o) == absoluteTime p).
Proof.
  split.
  - intros [n [Hn Hr]].
    destruct (time_propagation_rejects tree n Hn Hr) as [T L].
    split; [exact T|]. split; [exact L|].
    intros ln lw f E. unfold plot_timetree. now rewrite E, L.
  - intros Hok.
    destruct (time_propagation_result tree Hok) as [t1 [H [E1 [EH [ET [T A]]]]]].
    exists (place H H t1). split; [exact ET|]. split.
    + destruct (traverse_traversed _ _ _ E1) as [_ [_ [_ N]]].
      now rewrite branch_lengths_place.
    + intros o p Ho Hp Hnone.
      assert (Hh : height (this o) == height p).
      { rewrite (traversed_objects (place H H t1) 0 None 0 T) with (o := o) (p := p);
          [|discriminate | exact Ho | exact Hp].
        unfold length_of. rewrite Hnone. cbn [checked_length]. ring. }
      split; [exact Hh|].
      assert (Io : In (this o) (nodes (place H H t1))).
      { rewrite <- this_Objects. now apply in_map. }
      pose proof (Objects_parent_in _ _ _ Ho Hp) as Ip.
      now rewrite (A _ Io), (A _ Ip).
Qed.

(** ** Vertical layout *)

Lemma layout_children_eq l : forall k,
  (fix kids (k : nat) (l : list node) : list node * nat :=
     match l with
     | [] => ([], k)
     | c :: r =>
         let '(c', k1) := layout k c in
         let '(r', k2) := kids k1 r in
         (c' :: r', k2)
     end) k l = layout_children k l.
Proof.
  induction l as [|c r IH]; intros k; cbn [layout_children].
  - reflexivity.
  - destruct (layout k c) as [c' k1]. now rewrite IH.
Qed.

Lemma layout_eq k n :
  layout k n =
  match children n with
  | [] =>
      (Node (name n) (branch_length n) (traits n) (height n) (absoluteTime n)
            (slot k) [], S k)
  | _ :: _ =>
      let '(cs, k') := layout_children k (children n) in
      (Node (name n) (branch_length n) (traits n) (height n) (absoluteTime n)
            (mean (map y cs)) cs, k')
  end.
Proof.
  destruct n as [nm bl tr h a v cs].
  cbn [children name branch_length traits height absoluteTime].
  destruct cs as [|c r]; [reflexivity|].
  rewrite <- layout_children_eq. reflexivity.
Qed.

Lemma leaf_count_leaf n : children n = [] -> leaf_count n = 1%nat.
Proof. intros E. unfold leaf_count. now rewrite leaves_eq, E. Qed.

Lemma leaf_count_fork n :
  children n <> [] ->
  leaf_count n = List.length (flat_map leaves (children n)).
Proof.
  intros E. unfold leaf_count. rewrite leaves_eq.
  now destruct (children n).
Qed.

Lemma agree_refl_but_y nm bl tr h a v v' :
  agree (Node nm bl tr h a v []) (Node nm bl tr h a v' []).
Proof. unfold agree. cbn. repeat split. Qed.

(** The layout moves nothing but [y]: the nodes of the result are those of
    the input, in the same order, and the counter advances by the number
    of leaves. *)
Lemma layout_children_frame cs :
  Forall (fun c => forall k,
            snd (layout k c) = (k + leaf_count c)%nat /\
            Forall2 agree (nodes c) (nodes (fst (layout k c))) /\
            shape_of (fst (layout k c)) = shape_of c) cs ->
  forall k,
    snd (layout_children k cs) = (k + List.length (flat_map leaves cs))%nat /\
    Forall2 agree (flat_map nodes cs) (flat_map nodes (fst (layout_children k cs))) /\
    map shape_of (fst (layout_children k cs)) = map shape_of cs /\
    Forall2 agree cs (fst (layout_children k cs)).
Proof.
  induction 1 as [|c r Hc _ IH]; intros k; cbn [layout_children].
  - cbn. repeat split; try constructor. lia.
  - destruct (Hc k) as [S1 [A1 Sh1]].
    destruct (layout k c) as [c' k1]. cbn [fst snd] in *. subst k1.
    destruct (IH (k + leaf_count c)%nat) as [S2 [A2 [Sh2 R2]]].
    destruct (layout_children (k + leaf_count c) r) as [r' k2].
    cbn [fst snd flat_map map] in *. subst k2.
    split; [|split; [|split]].
    + rewrite length_app. unfold leaf_count. lia.
    + now apply Forall2_app.
    + now rewrite Sh1, Sh2.
    + constructor; [|exact R2].
      destruct c, c'. now inversion A1.
Qed.

Lemma layout_frame n : forall k,
  snd (layout k n) = (k + leaf_count n)%nat /\
  Forall2 agree (nodes n) (nodes (fst (layout k n))) /\
  shape_of (fst (layout k n)) = shape_of n.
Proof.
  induction n as [nm bl tr h a v cs IH] using node_ind. intros k.
  rewrite layout_eq.
  cbn [children name branch_length traits height absoluteTime].
  destruct cs as [|c r].
  - cbn [fst snd]. split; [|split].
    + rewrite leaf_count_leaf by reflexivity. lia.
    + cbn [nodes children flat_map]. constructor; [|constructor].
      apply agree_refl_but_y.
    + reflexivity.
  - destruct (layout_children_frame _ IH k) as [S [A [Sh R]]].
    destruct (layout_children k (c :: r)) as [cs' k'].
    cbn [fst snd] in *. split; [|split].
    + now rewrite leaf_count_fork.
    + cbn [nodes children]. constructor; [|exact A].
      unfold agree, is_leaf. cbn. destruct cs'; [discriminate|]. repeat split.
    + cbn [shape_of children]. now rewrite Sh.
Qed.

Lemma agree_filter_leaves l l' :
  Forall2 agree l l' -> Forall2 agree (filter is_leaf l) (filter is_leaf l').
Proof.
  induction 1 as [|m m' r r' Hm _ IH]; cbn [filter]; [constructor|].
  pose proof Hm as [_ [_ [_ [_ [_ Hl]]]]]. rewrite Hl.
  destruct (is_leaf m); [constructor|]; assumption.
Qed.

Lemma agree_map {B : Type} (f : node -> B) l l' :
  (forall m m', agree m m' -> f m' = f m) ->
  Forall2 agree l l' -> map f l' = map f l.
Proof.
  intros Hf. induction 1 as [|m m' r r' Hm _ IH]; cbn [map]; [reflexivity|].
  now rewrite (Hf _ _ Hm), IH.
Qed.

Lemma layout_leaves k n : Forall2 agree (leaves n) (leaves (fst (layout k n))).
Proof. apply agree_filter_leaves, layout_frame. Qed.

Lemma layout_leaf_count k n : leaf_count (fst (layout k n)) = leaf_count n.
Proof.
  unfold leaf_count. symmetry. exact (Forall2_length (layout_leaves k n)).
Qed.

Lemma layout_root_agree k n : agree n (fst (layout k n)).
Proof.
  destruct (layout_frame n k) as [_ [A _]].
  destruct n, (fst (layout k _)). now inversion A.
Qed.

Lemma length_of_agree m m' : agree m m' -> length_of m' = length_of m.
Proof. intros [_ [Hb _]]. unfold length_of. now rewrite Hb. Qed.

(** The slots of the leaves. *)
Lemma layout_children_slots cs :
  Forall (fun c => forall k,
            laid_out k (fst (layout k c)) /\
            map y (leaves (fst (layout k c))) = map slot (seq k (leaf_count c))) cs ->
  forall k,
    laid_out_children k (fst (layout_children k cs)) /\
    map y (flat_map leaves (fst (layout_children k cs))) =
    map slot (seq k (List.length (flat_map leaves cs))).
Proof.
  induction 1 as [|c r Hc _ IH]; intros k; cbn [layout_children].
  - split; [constructor | reflexivity].
  - destruct (Hc k) as [L1 Y1].
    pose proof (layout_frame c k) as [S1 _].
    pose proof (layout_leaf_count k c) as C1.
    destruct (layout k c) as [c' k1]. cbn [fst snd] in *. subst k1.
    destruct (IH (k + leaf_count c)%nat) as [L2 Y2].
    destruct (layout_children (k + leaf_count c) r) as [r' k2].
    cbn [fst snd flat_map] in *. split.
    + constructor; [exact L1|]. now rewrite C1.
    + rewrite map_app, length_app, seq_app, map_app, Y1, Y2. reflexivity.
Qed.

Lemma layout_slots n : forall k,
  laid_out k (fst (layout k n)) /\
  map y (leaves (fst (layout k n))) = map slot (seq k (leaf_count n)).
Proof.
  induction n as [nm bl tr h a v cs IH] using node_ind. intros k.
  rewrite layout_eq.
  cbn [children name branch_length traits height absoluteTime].
  destruct cs as [|c r].
  - cbn [fst]. split.
    + now apply laid_out_leaf.
    + rewrite leaf_count_leaf by reflexivity. now rewrite leaves_eq.
  - destruct (layout_children_slots _ IH k) as [L Y].
    destruct (layout_children_frame (c :: r)) with (k := k) as [_ [_ [Sh _]]].
    { apply Forall_forall. intros d _. apply layout_frame. }
    destruct (layout_children k (c :: r)) as [cs' k'].
    cbn [fst snd] in *.
    assert (N : cs' <> []) by (destruct cs'; [discriminate Sh | discriminate]).
    split.
    + apply laid_out_fork; cbn [children y]; [exact N | reflexivity | exact L].
    + rewrite leaf_count_fork by discriminate. rewrite leaves_eq.
      cbn [children]. destruct cs'; [contradiction | exact Y].
Qed.

(** A laid-out tree keeps its cumulative distances and its times. *)
Lemma layout_traversed n : forall k h,
  traversed h n -> traversed h (fst (layout k n)).
Proof.
  induction n as [nm bl tr h0 a v cs IH] using node_ind. intros k h T.
  inversion T as [h' n' Hh Hl Hc]; subst h' n'.
  cbn [height branch_length children] in Hh, Hl, Hc.
  rewrite layout_eq.
  cbn [children name branch_length traits height absoluteTime].
  destruct cs as [|c r].
  - constructor; cbn; auto.
  - assert (G : forall k, Forall (fun d => traversed (h + length_of d) d)
                                 (fst (layout_children k (c :: r)))).
    { clear - IH Hc. revert IH Hc. generalize (c :: r) as l.
      induction l as [|d l IHl]; intros IH Hc k; cbn [layout_children].
      - constructor.
      - inversion IH as [|d0 l0 IHd IHl0]; subst d0 l0.
        inversion Hc as [|d1 l1 Td Tl]; subst d1 l1.
        pose proof (IHd k _ Td) as T1.
        pose proof (length_of_agree _ _ (layout_root_agree k d)) as E.
        destruct (layout k d) as [d' k1]. cbn [fst] in *.
        specialize (IHl IHl0 Tl k1).
        destruct (layout_children k1 l) as [l' k2]. cbn [fst] in *.
        constructor; [now rewrite E | exact IHl]. }
    specialize (G k). destruct (layout_children k (c :: r)) as [cs' k'].
    cbn [fst] in *. constructor; cbn [height branch_length children]; assumption.
Qed.

Lemma layout_placed d H n k : placed d H n -> placed d H (fst (layout k n)).
Proof.
  unfold placed. destruct (layout_frame n k) as [_ [A _]]. revert A.
  generalize (nodes (fst (layout k n))) as l'. generalize (nodes n) as l.
  induction 1 as [|m m' r r' Hm _ IH]; intros P; [constructor|].
  inversion P as [|m0 r0 Pm Pr]; subst m0 r0. constructor; [|now apply IH].
  destruct Hm as [_ [_ [_ [Hh [Ha _]]]]]. now rewrite Ha, Hh.
Qed.

Lemma layout_tree_height k n : tree_height (fst (layout k n)) = tree_height n.
Proof.
  unfold tree_height. rewrite !getExternal_leaves.
  rewrite (agree_map height _ _ (fun m m' A => proj1 (proj2 (proj2 (proj2 A))))
                     (layout_leaves k n)).
  reflexivity.
Qed.

(** Laying a laid-out tree out again changes nothing. *)
Lemma laid_out_fixed n : forall k,
  laid_out k n -> layout k n = (n, (k + leaf_count n)%nat).
Proof.
  induction n as [nm bl tr h a v cs IH] using node_ind. intros k L.
  rewrite layout_eq.
  cbn [children name branch_length traits height absoluteTime].
  inversion L as [k0 n0 Hc Hy|k0 n0 Hc Hy Hl]; subst k0 n0;
    cbn [children y] in *.
  - subst cs. rewrite Hy, leaf_count_leaf by reflexivity.
    f_equal. lia.
  - assert (G : forall k, laid_out_children k cs ->
                layout_children k cs =
                (cs, (k + List.length (flat_map leaves cs))%nat)).
    { clear - IH. induction cs as [|c r IHr]; intros k Hl; cbn [layout_children].
      - cbn. f_equal. lia.
      - inversion IH as [|c0 r0 IHc IHr0]; subst c0 r0.
        inversion Hl as [|k0 c1 r1 Lc Lr]; subst k0 c1 r1.
        rewrite (IHc k Lc), (IHr IHr0 _ Lr). cbn [flat_map].
        rewrite length_app. unfold leaf_count. f_equal. lia. }
    rewrite (G k Hl), leaf_count_fork by exact Hc.
    destruct cs; [contradiction|]. cbn [children]. now rewrite <- Hy.
Qed.

(** ** Sorted tips *)

Lemma insert_by_sorted key x l :
  StronglySorted (fun a b => key a <= key b) l ->
  StronglySorted (fun a b => key a <= key b) (insert_by key x l).
Proof.
  induction 1 as [|h r Hr IH Hh]; cbn [insert_by].
  - constructor; constructor.
  - destruct (Qle_bool (key x) (key h)) eqn:E.
    + apply Qle_bool_iff in E. constructor; [now constructor|].
      constructor; [exact E|]. rewrite Forall_forall in *. intros z Hz.
      eapply Qle_trans; [exact E | now apply Hh].
    + constructor; [exact IH|].
      apply (Permutation_Forall (Permutation_sym (insert_by_perm key x r))).
      constructor; [|exact Hh]. apply Qlt_le_weak, Qnot_le_lt. intros H.
      apply Qle_bool_iff in H. congruence.
Qed.

Lemma sorted_sorted key l :
  StronglySorted (fun a b => key a <= key b) (sorted key l).
Proof.
  induction l as [|x l IH]; cbn [sorted fold_right].
  - constructor.
  - now apply insert_by_sorted.
Qed.

Lemma insert_by_strict key x l :
  StronglySorted (fun a b => key a < key b) l ->
  Forall (fun z => ~ key x == key z) l ->
  StronglySorted (fun a b => key a < key b) (insert_by key x l).
Proof.
  induction 1 as [|h r Hr IH Hh]; intros D; cbn [insert_by].
  - constructor; constructor.
  - inversion D as [|h0 r0 Dh Dr]; subst h0 r0.
    destruct (Qle_bool (key x) (key h)) eqn:E.
    + apply Qle_bool_iff in E.
      assert (L : key x < key h).
      { apply Qle_lt_or_eq in E. destruct E as [E|E]; [exact E | contradiction]. }
      constructor; [now constructor|].
      constructor; [exact L|]. rewrite Forall_forall in *. intros z Hz.
      eapply Qlt_trans; [exact L | now apply Hh].
    + constructor; [now apply IH|].
      apply (Permutation_Forall (Permutation_sym (insert_by_perm key x r))).
      constructor; [|exact Hh]. apply Qnot_le_lt. intros H.
      apply Qle_bool_iff in H. congruence.
Qed.

(** Sorting a list with pairwise different keys gives strictly increasing
    keys. *)
Lemma sorted_strict key l :
  ForallOrdPairs (fun a b => ~ key a == key b) l ->
  StronglySorted (fun a b => key a < key b) (sorted key l).
Proof.
  induction 1 as [|x l Hx _ IH]; cbn [sorted fold_right].
  - constructor.
  - apply insert_by_strict; [exact IH|].
    apply (Permutation_Forall (Permutation_sym (sorted_perm key l))). exact Hx.
Qed.

Lemma StronglySorted_map {A : Type} (f : A -> Q) (R : Q -> Q -> Prop) l :
  StronglySorted (fun a b => R (f a) (f b)) l <-> StronglySorted R (map f l).
Proof.
  induction l as [|x l IH]; cbn [map].
  - split; constructor.
  - split; intros H; inversion H as [|x0 l0 Hs Hf]; subst; constructor.
    + now apply IH.
    + rewrite Forall_forall in *. intros z Hz. apply in_map_iff in Hz.
      destruct Hz as [b [<- Hb]]. now apply Hf.
    + now apply IH.
    + rewrite Forall_forall in *. intros b Hb. apply Hf. now apply in_map.
Qed.

Lemma strict_distinct l :
  StronglySorted Qlt l -> ForallOrdPairs (fun a b => ~ a == b) l.
Proof.
  induction 1 as [|x l _ IH Hx]; constructor; [|exact IH].
  rewrite Forall_forall in *. intros z Hz E. apply Hx in Hz.
  rewrite E in Hz. exact (Qlt_irrefl _ Hz).
Qed.

Lemma ForallOrdPairs_map {A B : Type} (f : A -> B) (R : B -> B -> Prop) l :
  ForallOrdPairs R (map f l) -> ForallOrdPairs (fun a b => R (f a) (f b)) l.
Proof.
  induction l as [|x l IH]; cbn [map]; intros H; [constructor|].
  inversion H as [|x0 l0 Hx Hl]; subst. constructor; [|now apply IH].
  rewrite Forall_forall in *. intros b Hb. apply Hx. now apply in_map.
Qed.

(** The vertical positions carried by the tip labels, in the order the
    labels are emitted. *)
Lemma label_ys tree : flat_map label_y (primitives tree) = map y (tips tree).
Proof.
  assert (G : forall l, flat_map label_y l = flat_map label_y (filter is_tip_label l)).
  { induction l as [|g l IH]; cbn [flat_map filter]; [reflexivity|].
    destruct g; cbn [is_tip_label label_y flat_map app]; now rewrite IH. }
  rewrite G, primitives_tip_labels. unfold draw_tip_labels.
  induction (tips tree) as [|t l IH]; cbn [map flat_map]; [reflexivity|].
  now rewrite IH.
Qed.

(** ** Leaf slots *)

Lemma slots_increasing n : forall k, StronglySorted Qlt (map slot (seq k n)).
Proof.
  induction n as [|n IH]; intros k; cbn [seq map]; constructor.
  - apply IH.
  - apply Forall_map, Forall_forall. intros j Hj. apply in_seq in Hj.
    unfold slot. rewrite <- Zlt_Qlt. lia.
Qed.

Lemma drawTree_leaf_slots tree :
  map y (getExternal (drawTree tree)) =
  map slot (seq 0 (List.length (getExternal tree))).
Proof.
  unfold drawTree. rewrite !getExternal_leaves.
  destruct (layout_slots tree 0) as [_ ->]. reflexivity.
Qed.

Lemma drawTree_leaf_names tree :
  map name (getExternal (drawTree tree)) = map name (getExternal tree).
Proof.
  unfold drawTree. rewrite !getExternal_leaves.
  apply (agree_map name _ _ (fun m m' A => proj1 A) (layout_leaves 0 tree)).
Qed.

(** C5.  There are as many tip labels among the primitives as the tree
    has leaves.  The layout gives the leaves, in input order, the slots
    0, 1, 2, ...: a strictly increasing sequence of pairwise different
    vertical positions. *)
Theorem tip_labels_and_leaf_slots (tree : node) :
  List.length (filter is_tip_label (primitives tree)) =
    List.length (getExternal tree) /\
  map name (getExternal (drawTree tree)) = map name (getExternal tree) /\
  map y (getExternal (drawTree tree)) =
    map slot (seq 0 (List.length (getExternal tree))) /\
  StronglySorted Qlt (map y (getExternal (drawTree tree))) /\
  ForallOrdPairs (fun a b => ~ a == b) (map y (getExternal (drawTree tree))).
Proof.
  assert (S : StronglySorted Qlt (map y (getExternal (drawTree tree)))).
  { rewrite drawTree_leaf_slots. apply slots_increasing. }
  split; [|split; [|split; [|split]]].
  - rewrite primitives_tip_labels. unfold draw_tip_labels, tips.
    now rewrite length_map, sorted_length.
  - apply drawTree_leaf_names.
  - apply drawTree_leaf_slots.
  - exact S.
  - now apply strict_distinct.
Qed.

(** The tips in the order of their labels: the leaves themselves,
    rearranged so that [y] never decreases, and strictly increases when
    the leaves have pairwise different [y]. *)
Lemma tip_labels_in_order tree :
  Permutation (tips tree) (getExternal tree) /\
  filter is_tip_label (primitives tree) =
    map (fun leaf => TipLabel (absoluteTime leaf) (y leaf)
                              (String.append "  " (name leaf)))
        (tips tree) /\
  flat_map label_y (primitives tree) = map y (tips tree) /\
  StronglySorted (fun a b => y a <= y b) (tips tree) /\
  (ForallOrdPairs (fun a b => ~ y a == y b) (getExternal tree) ->
     StronglySorted (fun a b => y a < y b) (tips tree)).
Proof.
  split; [apply sorted_perm|]. split; [apply primitives_tip_labels|].
  split; [apply label_ys|]. split; [apply sorted_sorted|].
  intros D. unfold tips. now apply sorted_strict.
Qed.

(** C10.  The tip labels among the primitives are the labels of the
    leaves, one per leaf, each at its leaf's time and vertical position
    and reading two spaces and the leaf's name, emitted in an order of the
    leaves in which [y] never decreases; the order is strictly increasing
    in [y] as soon as the leaves have pairwise different vertical
    positions, which is the case after the layout. *)
Theorem tip_labels_increasing (tree : node) :
  (exists order,
     Permutation order (getExternal tree) /\
     filter is_tip_label (primitives tree) =
       map (fun leaf => TipLabel (absoluteTime leaf) (y leaf)
                                 (String.append "  " (name leaf)))
           order /\
     flat_map label_y (primitives tree) = map y order /\
     StronglySorted (fun a b => y a <= y b) order /\
     StronglySorted Qle (flat_map label_y (primitives tree)) /\
     (ForallOrdPairs (fun a b => ~ y a == y b) (getExternal tree) ->
        StronglySorted (fun a b => y a < y b) order /\
        StronglySorted Qlt (flat_map label_y (primitives tree)))) /\
  (exists order,
     Permutation order (getExternal (drawTree tree)) /\
     filter is_tip_label (primitives (drawTree tree)) =
       map (fun leaf => TipLabel (absoluteTime leaf) (y leaf)
                                 (String.append "  " (name leaf)))
           order /\
     flat_map label_y (primitives (drawTree tree)) = map y order /\
     StronglySorted (fun a b => y a < y b) order /\
     StronglySorted Qlt (flat_map label_y (primitives (drawTree tree)))).
Proof.
  split.
  - destruct (tip_labels_in_order tree) as [P [E [L [S D]]]].
    exists (tips tree). split; [exact P|]. split; [exact E|].
    split; [exact L|]. split; [exact S|]. split.
    + rewrite L. now apply (proj1 (StronglySorted_map y Qle _)).
    + intros H. split; [now apply D|]. rewrite L.
      apply (proj1 (StronglySorted_map y Qlt _)). now apply D.
  - destruct (tip_labels_in_order (drawTree tree)) as [P [E [L [_ D]]]].
    assert (H : ForallOrdPairs (fun a b => ~ y a == y b)
                               (getExternal (drawTree tree))).
    { apply (ForallOrdPairs_map y (fun a b => ~ a == b)), strict_distinct.
      rewrite drawTree_leaf_slots. apply slots_increasing. }
    exists (tips (drawTree tree)). split; [exact P|]. split; [exact E|].
    split; [exact L|]. split; [now apply D|]. rewrite L.
    apply (proj1 (StronglySorted_map y Qlt _)). now apply D.
Qed.

(** ** Running the passes again *)

Lemma layout_passes_of_traverse tree t1 H :
  traverse 0 tree = Ok t1 -> tree_height t1 = Ok H ->
  layout_passes tree = Ok (drawTree (place H H t1)).
Proof.
  intros E1 EH.
  destruct (time_propagation_of_traverse _ _ E1) as [H' [EH' ET]].
  assert (H' = H) by congruence. subst H'.
  destruct (traverse_traversed _ _ _ E1) as [T _].
  pose proof (traversed_traverse _ _ (traversed_place H H _ _ T)) as E2.
  unfold layout_passes, treeStats, traverse_tree. rewrite ET. cbn [bind].
  rewrite E2. cbn [bind]. rewrite tree_height_place, EH. cbn [bind fst].
  now rewrite E2.
Qed.

Lemma layout_passes_inv tree t :
  layout_passes tree = Ok t ->
  exists t1 H, traverse 0 tree = Ok t1 /\ tree_height t1 = Ok H /\
               t = drawTree (place H H t1).
Proof.
  intros E. destruct (time_propagation tree) as [tp|e] eqn:ET.
  - destruct (time_propagation_inv _ _ ET) as [t1 [H [E1 [EH _]]]].
    exists t1, H. split; [exact E1|]. split; [exact EH|].
    rewrite (layout_passes_of_traverse _ _ _ E1 EH) in E. congruence.
  - unfold layout_passes in E. rewrite ET in E. discriminate.
Qed.

Lemma drawTree_fixed t : laid_out 0 t -> drawTree t = t.
Proof. intros L. unfold drawTree. now rewrite (laid_out_fixed t 0 L). Qed.

(** A tree that went through the passes comes out of them unchanged. *)
Lemma layout_passes_fixed t1 H :
  traversed 0 t1 -> tree_height t1 = Ok H ->
  layout_passes (drawTree (place H H t1)) = Ok (drawTree (place H H t1)).
Proof.
  intros T EH. set (t := drawTree (place H H t1)).
  assert (Tt : traversed 0 t).
  { apply layout_traversed. now apply traversed_place. }
  assert (Ht : tree_height t = Ok H).
  { unfold t, drawTree. now rewrite layout_tree_height, tree_height_place. }
  assert (Pt : placed H H t).
  { apply layout_placed. apply placed_place. }
  assert (Lt : laid_out 0 t).
  { apply layout_slots. }
  rewrite (layout_passes_of_traverse t t H (traversed_traverse _ _ Tt) Ht).
  rewrite (placed_fixed _ _ _ Pt). now rewrite (drawTree_fixed _ Lt).
Qed.

(** The vertical positions depend on the shape of the tree alone. *)
Lemma layout_children_shape cs :
  Forall (fun c => forall d k, shape_of c = shape_of d ->
            snd (layout k c) = snd (layout k d) /\
            map y (nodes (fst (layout k c))) = map y (nodes (fst (layout k d)))) cs ->
  forall ds k, map shape_of cs = map shape_of ds ->
    snd (layout_children k cs) = snd (layout_children k ds) /\
    map y (flat_map nodes (fst (layout_children k cs))) =
    map y (flat_map nodes (fst (layout_children k ds))) /\
    map y (fst (layout_children k cs)) = map y (fst (layout_children k ds)).
Proof.
  induction 1 as [|c r Hc _ IH]; intros ds k E; destruct ds as [|d ds];
    try discriminate E; cbn [layout_children].
  - now repeat split.
  - cbn [map] in E. injection E as Ec Er.
    destruct (Hc d k Ec) as [S1 Y1].
    destruct (layout k c) as [c' k1], (layout k d) as [d' k1'].
    cbn [fst snd] in *. subst k1'.
    destruct (IH ds k1 Er) as [S2 [Y2 R2]].
    destruct (layout_children k1 r) as [r' k2],
             (layout_children k1 ds) as [ds' k2'].
    cbn [fst snd flat_map map] in *. split; [exact S2|]. split.
    + now rewrite !map_app, Y1, Y2.
    + rewrite R2. f_equal. destruct c', d'. cbn [nodes map] in Y1.
      now injection Y1.
Qed.

Lemma layout_shape n : forall m k,
  shape_of n = shape_of m ->
  snd (layout k n) = snd (layout k m) /\
  map y (nodes (fst (layout k n))) = map y (nodes (fst (layout k m))).
Proof.
  induction n as [nm bl tr h a v cs IH] using node_ind.
  intros [nm' bl' tr' h' a' v' ds] k E. cbn [shape_of children] in E.
  injection E as E. rewrite !layout_eq.
  cbn [children name branch_length traits height absoluteTime].
  destruct cs as [|c r], ds as [|d ds]; try discriminate E.
  - now split.
  - destruct (layout_children_shape _ IH (d :: ds) k E) as [S [Y R]].
    destruct (layout_children k (c :: r)) as [cs' k1],
             (layout_children k (d :: ds)) as [ds' k2].
    cbn [fst snd] in *. split; [exact S|].
    cbn [nodes children map y]. now rewrite R, Y.
Qed.

(** C9.  Running the passes on a tree that already went through them
    returns that very tree, with the same [height], [absoluteTime] and [y]
    at every node; and the vertical positions of two trees of the same
    shape are the same, whatever else the trees carry. *)
Theorem layout_passes_repeatable :
  (forall tree t, layout_passes tree = Ok t -> layout_passes t = Ok t) /\
  (forall tree tree' t t', shape_of tree = shape_of tree' ->
     layout_passes tree = Ok t -> layout_passes tree' = Ok t' ->
     map y (nodes t) = map y (nodes t')) /\
  (forall tree tree', shape_of tree = shape_of tree' ->
     map y (nodes (drawTree tree)) = map y (nodes (drawTree tree'))).
Proof.
  split; [|split].
  - intros tree t E.
    destruct (layout_passes_inv _ _ E) as [t1 [H [E1 [EH ->]]]].
    destruct (traverse_traversed _ _ _ E1) as [T _].
    now apply layout_passes_fixed.
  - intros tree tree' t t' S E E'.
    destruct (layout_passes_inv _ _ E) as [t1 [H [E1 [_ ->]]]].
    destruct (layout_passes_inv _ _ E') as [t1' [H' [E1' [_ ->]]]].
    destruct (traverse_traversed _ _ _ E1) as [_ [S1 _]].
    destruct (traverse_traversed _ _ _ E1') as [_ [S1' _]].
    apply layout_shape. rewrite !shape_place. congruence.
  - intros tree tree' S. now apply layout_shape.
Qed.

(** ** The statements at concrete trees *)

(** C6 as it is worded fails when both parsers fail: the run ends in
    [sys.exit(1)] with the second parser's message only, not in a
    [MalformedTreeError] handed to the caller. *)
Lemma both_parsers_fail_exits :
  plot_timetree (failing_parser "not nexus") (failing_parser "not newick")
                "tree.nwk" =
    Exit 1 "Error loading tree: not newick" /\
  ~ (forall loadNexus loadNewick tree_file e1 e2,
       loadNexus tree_file = Failed e1 -> loadNewick tree_file = Failed e2 ->
       plot_timetree loadNexus loadNewick tree_file = Fails MalformedTreeError).
Proof.
  split; [reflexivity|]. intros C.
  specialize (C (failing_parser "not nexus") (failing_parser "not newick")
                "tree.nwk"%string _ _ eq_refl eq_refl).
  discriminate C.
Qed.

Lemma load_first_success_or_exit_witness :
  failing_parser "not nexus" "tree.nwk" = Failed (Exception "not nexus") /\
  failing_parser "not newick" "tree.nwk" = Failed (Exception "not newick") /\
  plot_timetree (failing_parser "not nexus") (failing_parser "not newick")
                "tree.nwk" =
    Exit 1 (String.append "Error loading tree: " "not newick").
Proof.
  split; [reflexivity|]. split; [reflexivity|].
  destruct (load_first_success_or_exit
              (failing_parser "not nexus") (failing_parser "not newick")
              "tree.nwk") as [_ [_ [H _]]].
  apply (H (Exception "not nexus")); reflexivity.
Defined.

Lemma branch_segment_per_child_witness :
  (In three_leaves_drawn (nodes three_leaves_drawn) /\
   In (nth 1 (children three_leaves_drawn) single_node)
      (children three_leaves_drawn) /\
   In (BranchSegment 0 2 4) (primitives three_leaves_drawn)) /\
  (children single_node = [] /\
   filter is_branch (primitives single_node) = []).
Proof.
  split.
  - assert (Hp : In three_leaves_drawn (nodes three_leaves_drawn))
      by (now left).
    assert (Hn : In (nth 1 (children three_leaves_drawn) single_node)
                    (children three_leaves_drawn))
      by (right; now left).
    split; [exact Hp|]. split; [exact Hn|].
    destruct (branch_segment_per_child three_leaves_drawn) as [H _].
    exact (H _ _ Hp Hn).
  - split; [reflexivity|].
    destruct (branch_segment_per_child single_node) as [_ [_ [_ [_ H]]]].
    apply H. reflexivity.
Defined.

Lemma connector_per_fork_witness :
  (2 <= List.length (children three_leaves_drawn))%nat /\
  exists lo hi,
    connector_of three_leaves_drawn =
      [ConnectorSegment (absoluteTime three_leaves_drawn) lo hi] /\
    least lo (map y (children three_leaves_drawn)) /\
    greatest hi (map y (children three_leaves_drawn)).
Proof.
  assert (H2 : (2 <= List.length (children three_leaves_drawn))%nat)
    by (cbn; lia).
  split; [exact H2|].
  destruct (connector_per_fork three_leaves_drawn) as [_ [_ H]].
  exact (H three_leaves_drawn H2).
Defined.


Lemma negative_branch_rejected :
  exists n, In n (nodes negative_branch) /\ rejected (branch_length n).
Proof.
  exists (tip "A" (-1)). split; [right; now left | reflexivity].
Defined.

Lemma invalid_branch_length_aborts_witness :
  (exists n, In n (nodes negative_branch) /\ rejected (branch_length n)) /\
  time_propagation negative_branch = Raise InvalidBranchLengthError.
Proof.
  split; [exact negative_branch_rejected|].
  destruct (invalid_branch_length_aborts negative_branch) as [H _].
  exact (proj1 (H negative_branch_rejected)).
Defined.

Lemma layout_passes_repeatable_witness :
  layout_passes three_leaves = Ok three_leaves_drawn /\
  layout_passes three_leaves_drawn = Ok three_leaves_drawn.
Proof.
  assert (E : layout_passes three_leaves = Ok three_leaves_drawn)
    by (vm_compute; reflexivity).
  split; [exact E|].
  destruct layout_passes_repeatable as [H _].
  exact (H three_leaves three_leaves_drawn E).
Defined.

Lemma three_leaves_drawn_distinct :
  ForallOrdPairs (fun a b => ~ y a == y b) (getExternal three_leaves_drawn).
Proof.
  cbn. repeat constructor; intros H; discriminate H.
Defined.

Lemma tip_labels_increasing_witness :
  ForallOrdPairs (fun a b => ~ y a == y b) (getExternal three_leaves_drawn) /\
  exists order,
    Permutation order (getExternal three_leaves_drawn) /\
    filter is_tip_label (primitives three_leaves_drawn) =
      map (fun leaf => TipLabel (absoluteTime leaf) (y leaf)
                                (String.append "  " (name leaf)))
          order /\
    StronglySorted (fun a b => y a < y b) order /\
    StronglySorted Qlt (flat_map label_y (primitives three_leaves_drawn)).
Proof.
  split; [exact three_leaves_drawn_distinct|].
  destruct (tip_labels_increasing three_leaves_drawn)
    as [[order [P [E [_ [_ [_ H]]]]]] _].
  exists order. split; [exact P|]. split; [exact E|].
  exact (H three_leaves_drawn_distinct).
Defined.

(** * Further properties of [visualize_tree.py] *)

(** ** Tip labels *)

(** Every leaf is labelled exactly once: the tip labels among the
    primitives are, up to order, one label per leaf, at the leaf's time and
    vertical position, reading two spaces and the leaf's name. *)
Theorem tip_labels_cover_leaves (tree : node) :
  Permutation
    (filter is_tip_label (primitives tree))
    (map (fun leaf => TipLabel (absoluteTime leaf) (y leaf)
                               (String.append "  " (name leaf)))
         (getExternal tree)).
Proof.
  rewrite primitives_tip_labels. unfold draw_tip_labels, tips.
  apply (Permutation_map tip_label). apply sorted_perm.
Qed.

Lemma insert_by_first key x l :
  Forall (fun z => key x <= key z) l -> insert_by key x l = x :: l.
Proof.
  destruct l as [|h r]; cbn [insert_by]; [reflexivity|].
  intros H. inversion H as [|h0 r0 Hh _]; subst.
  apply Qle_bool_iff in Hh. now rewrite Hh.
Qed.

Lemma sorted_fixed key l :
  StronglySorted (fun a b => key a <= key b) l -> sorted key l = l.
Proof.
  induction 1 as [|x l _ IH Hx]; cbn [sorted fold_right]; [reflexivity|].
  fold (sorted key l). rewrite IH. now apply insert_by_first.
Qed.

(** When the leaves already come in non-decreasing order of [y], the sort
    of line 85 moves nothing and the labels are emitted in the order of
    [tree.getExternal()]. *)
Theorem tip_labels_keep_sorted_order (tree : node) :
  StronglySorted (fun a b => y a <= y b) (getExternal tree) ->
  filter is_tip_label (primitives tree) = map tip_label (getExternal tree).
Proof.
  intros S. rewrite primitives_tip_labels. unfold draw_tip_labels, tips.
  now rewrite sorted_fixed.
Qed.

Lemma tip_labels_keep_sorted_order_witness :
  StronglySorted (fun a b => y a <= y b) (getExternal three_leaves_drawn) /\
  filter is_tip_label (primitives three_leaves_drawn) =
  map tip_label (getExternal three_leaves_drawn).
Proof.
  assert (S : StronglySorted (fun a b => y a <= y b)
                             (getExternal three_leaves_drawn)).
  { cbn. repeat constructor; intros H; discriminate H. }
  split; [exact S|]. exact (tip_labels_keep_sorted_order three_leaves_drawn S).
Defined.

(** ** Support markers *)

Lemma at_least_weaken x c d : c <= d -> at_least x d -> at_least x c.
Proof.
  destruct x as [q| | |]; cbn; intros Hcd H; try exact H.
  eapply Qle_trans; eassumption.
Qed.

(** No marker without support: there are at most as many markers as
    internal nodes, every marker sits at the time and vertical position of
    an internal node whose posterior is at least 0.75, and a tree that is
    a single leaf gets no marker whatever its posterior. *)
Theorem markers_only_at_supported_nodes (tree : node) :
  (List.length (filter is_marker (primitives tree)) <=
     List.length (getInternal tree))%nat /\
  (forall g, In g (primitives tree) -> is_marker g = true ->
     exists n p t,
       In n (getInternal tree) /\ children n <> [] /\
       posterior_of n = Some p /\ at_least p 0.75 /\
       g = SupportMarker (absoluteTime n) (y n) t) /\
  (children tree = [] -> filter is_marker (primitives tree) = []).
Proof.
  split; [|split].
  - rewrite primitives_markers. unfold draw_supports.
    induction (getInternal tree) as [|n l IH]; cbn [flat_map List.length].
    + lia.
    + rewrite length_app.
      destruct (draw_support_cases n) as [-> | [-> | ->]]; cbn [List.length]; lia.
  - intros g Hg Mg.
    assert (G : In g (filter is_marker (primitives tree)))
      by (apply filter_In; now split).
    rewrite primitives_markers in G. unfold draw_supports in G.
    apply in_flat_map in G. destruct G as [n [Hn Gn]].
    assert (Cn : children n <> []).
    { unfold getInternal in Hn. apply filter_In in Hn. destruct Hn as [_ L].
      unfold is_leaf in L. now destruct (children n). }
    destruct (draw_support_cases n) as [E | [E | E]]; rewrite E in Gn.
    + destruct Gn.
    + destruct Gn as [<-|[]]. apply draw_support_high in E.
      destruct E as [p [Ep Hp]]. exists n, p, high. repeat split; auto.
      revert Hp. apply at_least_weaken. discriminate.
    + destruct Gn as [<-|[]]. apply draw_support_medium in E.
      destruct E as [p [Ep [Hp _]]]. exists n, p, medium. repeat split; auto.
  - intros Hc. rewrite primitives_markers. unfold draw_supports, getInternal.
    rewrite this_Objects. destruct tree as [nm bl tr h a v cs].
    cbn [children] in Hc. subst cs. reflexivity.
Qed.

Lemma markers_only_at_supported_nodes_witness :
  children single_node = [] /\
  filter is_marker (primitives single_node) = [].
Proof.
  split; [reflexivity|].
  destruct (markers_only_at_supported_nodes single_node) as [_ [_ H]].
  apply H. reflexivity.
Defined.

(** The truthiness test in [if posterior and posterior >= ...] never
    changes the outcome: the marker is the one the two comparisons alone
    select. *)
Theorem posterior_truthiness_is_redundant (n : node) :
  draw_support n =
  match posterior_of n with
  | None => []
  | Some posterior =>
      if float_ge posterior 0.95 then
        [SupportMarker (absoluteTime n) (y n) high]
      else if float_ge posterior 0.75 then
        [SupportMarker (absoluteTime n) (y n) medium]
      else []
  end.
Proof.
  assert (G : forall x c, 0 < c -> truthy x && float_ge x c = float_ge x c).
  { intros x c Hc. destruct (float_ge x c) eqn:E.
    - apply float_ge_at_least in E. now rewrite (at_least_truthy x c Hc E).
    - apply andb_false_r. }
  unfold draw_support. destruct (posterior_of n) as [p|]; [|reflexivity].
  now rewrite !G by reflexivity.
Qed.

(** ** Segments meet *)

Lemma connectors_of_nodes tree :
  filter is_connector (primitives tree) = flat_map connector_of (nodes tree).
Proof.
  rewrite primitives_connectors. unfold Objects. now rewrite connectors_from.
Qed.

Lemma child_branch_drawn tree p c :
  In p (nodes tree) -> In c (children p) ->
  In (BranchSegment (absoluteTime p) (y c) (absoluteTime c)) (primitives tree).
Proof.
  intros Hp Hc. destruct (objects_from_child tree None 0 p c Hp Hc) as [j Hj].
  assert (G : In (BranchSegment (absoluteTime p) (y c) (absoluteTime c))
                 (filter is_branch (primitives tree))).
  { rewrite primitives_branches. apply in_flat_map.
    exists (Object c (Some p) j). split; [exact Hj | now left]. }
  apply filter_In in G. apply G.
Qed.

(** The drawing is connected: at a node with two or more children the
    branch of every child starts on the node's connector, at the node's
    time and at a height within the connector's span. *)
Theorem child_branches_start_on_connector (tree p c : node) :
  In p (nodes tree) -> (2 <= List.length (children p))%nat ->
  In c (children p) ->
  exists lo hi,
    In (ConnectorSegment (absoluteTime p) lo hi) (primitives tree) /\
    In (BranchSegment (absoluteTime p) (y c) (absoluteTime c)) (primitives tree) /\
    lo <= y c /\ y c <= hi.
Proof.
  intros Hp H2 Hc.
  destruct (children p) as [|c1 [|c2 r]] eqn:E; cbn [List.length] in H2; try lia.
  exists (fold_left Qmin (map y (c2 :: r)) (y c1)),
         (fold_left Qmax (map y (c2 :: r)) (y c1)).
  split; [|split].
  - assert (G : In (ConnectorSegment (absoluteTime p)
                      (fold_left Qmin (map y (c2 :: r)) (y c1))
                      (fold_left Qmax (map y (c2 :: r)) (y c1)))
                   (filter is_connector (primitives tree))).
    { rewrite connectors_of_nodes. apply in_flat_map. exists p.
      split; [exact Hp|]. unfold connector_of. rewrite E. now left. }
    apply filter_In in G. apply G.
  - apply child_branch_drawn; [exact Hp | now rewrite E].
  - destruct (fold_min_least (map y (c2 :: r)) (y c1)) as [_ L].
    split.
    + apply L. change (In (y c) (map y (c1 :: c2 :: r))). now apply in_map.
    + destruct (fold_max_greatest (map y (c2 :: r)) (y c1)) as [_ G].
      apply G. change (In (y c) (map y (c1 :: c2 :: r))). now apply in_map.
Qed.

Lemma child_branches_start_on_connector_witness :
  In three_leaves_drawn (nodes three_leaves_drawn) /\
  (2 <= List.length (children three_leaves_drawn))%nat /\
  In (nth 1 (children three_leaves_drawn) single_node)
     (children three_leaves_drawn) /\
  exists lo hi,
    In (ConnectorSegment 0 lo hi) (primitives three_leaves_drawn) /\
    In (BranchSegment 0 2 4) (primitives three_leaves_drawn) /\
    lo <= 2 /\ 2 <= hi.
Proof.
  assert (Hp : In three_leaves_drawn (nodes three_leaves_drawn)) by (now left).
  assert (H2 : (2 <= List.length (children three_leaves_drawn))%nat)
    by (cbn; lia).
  assert (Hc : In (nth 1 (children three_leaves_drawn) single_node)
                  (children three_leaves_drawn)) by (right; now left).
  split; [exact Hp|]. split; [exact H2|]. split; [exact Hc|].
  exact (child_branches_start_on_connector _ _ _ Hp H2 Hc).
Defined.

(** ** Axis limits contain the drawing *)

Lemma times_bounds tree :
  exists lo hi,
    py_min (map absoluteTime (nodes tree)) = Some lo /\
    py_max (map absoluteTime (nodes tree)) = Some hi /\
    least lo (map absoluteTime (nodes tree)) /\
    greatest hi (map absoluteTime (nodes tree)).
Proof.
  assert (N : map absoluteTime (nodes tree) <> []) by (now destruct tree).
  destruct (py_min_least _ N) as [lo [E1 Hlo]].
  destruct (py_max_greatest _ N) as [hi [E2 Hhi]].
  now exists lo, hi.
Qed.

(** [min] and [max] of lines 106-107 never fail, the horizontal limits
    are in order and hold the time of every node; the range collapses to
    a single point exactly when all nodes share one time, as in a tree of
    a single node. *)
Theorem xlim_holds_every_time (tree : node) :
  exists left right,
    xlim tree = Some (left, right) /\
    left <= right /\
    (forall n, In n (nodes tree) ->
       left <= absoluteTime n /\ absoluteTime n <= right) /\
    (left == right <->
     forall n m, In n (nodes tree) -> In m (nodes tree) ->
                 absoluteTime n == absoluteTime m).
Proof.
  destruct (times_bounds tree) as [lo [hi [E1 [E2 [[Ilo Llo] [Ihi Ghi]]]]]].
  unfold xlim. rewrite this_Objects, E1, E2.
  pose proof (Llo hi Ihi) as Hspan.
  eexists. eexists. split; [reflexivity|]. split; [lra|]. split.
  - intros n Hn.
    pose proof (Llo _ (in_map absoluteTime _ _ Hn)).
    pose proof (Ghi _ (in_map absoluteTime _ _ Hn)). split; lra.
  - split.
    + intros E n m Hn Hm.
      pose proof (Llo _ (in_map absoluteTime _ _ Hn)).
      pose proof (Ghi _ (in_map absoluteTime _ _ Hn)).
      pose proof (Llo _ (in_map absoluteTime _ _ Hm)).
      pose proof (Ghi _ (in_map absoluteTime _ _ Hm)). lra.
    + intros A. apply in_map_iff in Ilo. destruct Ilo as [n [En Hn]].
      apply in_map_iff in Ihi. destruct Ihi as [m [Em Hm]].
      pose proof (A n m Hn Hm) as E. rewrite En, Em in E. lra.
Qed.

(** The vertical limits are never empty: they span as many units as there
    are leaves, at least one, and every integer position below the number
    of leaves lies strictly inside them. *)
Theorem ylim_holds_every_slot (tree : node) :
  fst (ylim tree) < snd (ylim tree) /\
  snd (ylim tree) - fst (ylim tree) ==
    inject_Z (Z.of_nat (List.length (getExternal tree))) /\
  (1 <= List.length (getExternal tree))%nat /\
  (forall k, (k < List.length (getExternal tree))%nat ->
     fst (ylim tree) < inject_Z (Z.of_nat k) /\
     inject_Z (Z.of_nat k) < snd (ylim tree)).
Proof.
  unfold ylim, tips. rewrite sorted_length. cbn [fst snd].
  assert (N : (1 <= List.length (getExternal tree))%nat).
  { rewrite getExternal_leaves. pose proof (leaves_nonempty tree).
    destruct (leaves tree); [contradiction | cbn; lia]. }
  set (n := List.length (getExternal tree)) in *.
  assert (Hn : 1 <= inject_Z (Z.of_nat n)).
  { change 1 with (inject_Z 1). rewrite <- Zle_Qle. lia. }
  split; [lra|]. split; [ring|]. split; [exact N|].
  intros k Hk.
  assert (H0 : 0 <= inject_Z (Z.of_nat k)).
  { change 0 with (inject_Z 0). rewrite <- Zle_Qle. lia. }
  assert (H1 : inject_Z (Z.of_nat k) + 1 <= inject_Z (Z.of_nat n)).
  { change 1 with (inject_Z 1). rewrite <- inject_Z_plus, <- Zle_Qle. lia. }
  split; lra.
Qed.

Lemma ylim_holds_every_slot_witness :
  (1 < List.length (getExternal three_leaves_drawn))%nat /\
  fst (ylim three_leaves_drawn) < inject_Z (Z.of_nat 1) /\
  inject_Z (Z.of_nat 1) < snd (ylim three_leaves_drawn).
Proof.
  assert (H : (1 < List.length (getExternal three_leaves_drawn))%nat)
    by (cbn; lia).
  split; [exact H|].
  destruct (ylim_holds_every_slot three_leaves_drawn) as [_ [_ [_ K]]].
  exact (K 1%nat H).
Defined.

Lemma xlim_holds_every_time_witness :
  In three_leaves_drawn (nodes three_leaves_drawn) /\
  exists left right,
    xlim three_leaves_drawn = Some (left, right) /\
    left <= absoluteTime three_leaves_drawn /\
    absoluteTime three_leaves_drawn <= right.
Proof.
  assert (Hn : In three_leaves_drawn (nodes three_leaves_drawn)) by (now left).
  split; [exact Hn|].
  destruct (xlim_holds_every_time three_leaves_drawn)
    as [l [r [E [_ [H _]]]]].
  exists l, r. split; [exact E|]. exact (H _ Hn).
Defined.

(** ** How a run can end *)


(** Lines 30-39 read backwards.  A tree is loaded only if the Nexus parser
    returned it, or that parser failed and the Newick parser returned it.
    The process exits only with status 1, after both parsers failed, with
    the Newick parser's message; an exception leaves only if the Nexus
    parser failed and the Newick parser raised something that is not an
    [Exception], and it is that very exception.  What the Nexus parser
    raised never matters, not even when it is not an [Exception]. *)
Theorem load_tree_outcomes
    (loadNexus loadNewick : string -> parse) (tree_file : string) :
  (forall tree, load_tree loadNexus loadNewick tree_file = Loaded tree ->
     loadNexus tree_file = Parsed tree \/
     exists e1, loadNexus tree_file = Failed e1 /\
                loadNewick tree_file = Parsed tree) /\
  (forall status text,
     load_tree loadNexus loadNewick tree_file = LoadExit status text ->
     status = 1%Z /\
     exists e1 msg,
       loadNexus tree_file = Failed e1 /\
       loadNewick tree_file = Failed (Exception msg) /\
       text = String.append "Error loading tree: " msg) /\
  (forall e, load_tree loadNexus loadNewick tree_file = LoadUncaught e ->
     exists e1 msg,
       loadNexus tree_file = Failed e1 /\
       loadNewick tree_file = Failed (BaseException msg) /\
       e = BaseException msg) /\
  (forall otherNexus e1 e2,
     loadNexus tree_file = Failed e1 -> otherNexus tree_file = Failed e2 ->
     load_tree otherNexus loadNewick tree_file =
     load_tree loadNexus loadNewick tree_file).
Proof.
  unfold load_tree. split; [|split; [|split]].
  - intros tree. destruct (loadNexus tree_file) as [t|e1].
    + intros [= ->]. now left.
    + destruct (loadNewick tree_file) as [t|[msg|msg]]; try discriminate.
      intros [= ->]. right. now exists e1.
  - intros status text. destruct (loadNexus tree_file) as [t|e1];
      [discriminate|].
    destruct (loadNewick tree_file) as [t|[msg|msg]]; try discriminate.
    intros [= <- <-]. split; [reflexivity|]. now exists e1, msg.
  - intros e. destruct (loadNexus tree_file) as [t|e1]; [discriminate|].
    destruct (loadNewick tree_file) as [t|[msg|msg]]; try discriminate.
    intros [= <-]. now exists e1, msg.
  - intros otherNexus e1 e2 -> ->. reflexivity.
Qed.

Lemma load_tree_outcomes_witness :
  load_tree (failing_parser "not nexus") (failing_parser "not newick")
            "tree.nwk" =
    LoadExit 1 "Error loading tree: not newick" /\
  exists e1 msg,
    failing_parser "not nexus" "tree.nwk" = Failed e1 /\
    failing_parser "not newick" "tree.nwk" = Failed (Exception msg) /\
    "Error loading tree: not newick"%string =
      String.append "Error loading tree: " msg.
Proof.
  assert (E : load_tree (failing_parser "not nexus")
                (failing_parser "not newick") "tree.nwk" =
              LoadExit 1 "Error loading tree: not newick") by reflexivity.
  split; [exact E|].
  destruct (load_tree_outcomes
              (failing_parser "not nexus") (failing_parser "not newick")
              "tree.nwk") as [_ [H _]].
  exact (proj2 (H _ _ E)).
Defined.

(** ** Figure size and output files *)

(** The figure is 12 wide; its height is 8 for up to 40 tips and 0.2 per
    tip beyond that, so never below 8. *)
Theorem figsize_height (tree : node) :
  fst (figsize tree) = 12 /\
  8 <= snd (figsize tree) /\
  ((List.length (getExternal tree) <= 40)%nat -> snd (figsize tree) = 8) /\
  ((40 < List.length (getExternal tree))%nat ->
     snd (figsize tree) =
       inject_Z (Z.of_nat (List.length (getExternal tree))) * 0.2).
Proof.
  unfold figsize. cbn [fst snd].
  set (n := List.length (getExternal tree)).
  split; [reflexivity|]. split; [apply Q.le_max_l|].
  unfold Qmax, GenericMinMax.gmax. split.
  - intros H.
    assert (L : inject_Z (Z.of_nat n) <= 40).
    { change 40 with (inject_Z 40). rewrite <- Zle_Qle. lia. }
    destruct (8 ?= inject_Z (Z.of_nat n) * 0.2) eqn:C; try reflexivity.
    apply Qlt_alt in C. lra.
  - intros H.
    assert (L : 41 <= inject_Z (Z.of_nat n)).
    { change 41 with (inject_Z 41). rewrite <- Zle_Qle. lia. }
    destruct (8 ?= inject_Z (Z.of_nat n) * 0.2) eqn:C; try reflexivity.
    + apply Qeq_alt in C. lra.
    + apply Qgt_alt in C. lra.
Qed.

Lemma figsize_height_witness :
  (List.length (getExternal three_leaves_drawn) <= 40)%nat /\
  snd (figsize three_leaves_drawn) = 8.
Proof.
  assert (H : (List.length (getExternal three_leaves_drawn) <= 40)%nat)
    by (cbn; lia).
  split; [exact H|].
  destruct (figsize_height three_leaves_drawn) as [_ [_ [K _]]].
  exact (K H).
Defined.









(** * Properties of [generate_report.py] *)

Section ReportFacts.

Variable isspace : N -> bool.

(** ** Stripping and splitting *)

Lemma lstrip_spaces ws s : spaces isspace ws -> lstrip isspace (ws ++ s) = lstrip isspace s.
Proof.
  induction 1 as [|c r Hc _ IH]; cbn [app lstrip]; [reflexivity|].
  now rewrite Hc.
Qed.

Lemma lstrip_all_spaces ws : spaces isspace ws -> lstrip isspace ws = [].
Proof.
  intros H. rewrite <- (app_nil_r ws). now rewrite lstrip_spaces.
Qed.

Lemma lstrip_prefix s :
  exists ws, s = ws ++ lstrip isspace s /\ spaces isspace ws.
Proof.
  induction s as [|c r [ws [E H]]]; cbn [lstrip].
  - exists []. split; [reflexivity | constructor].
  - destruct (isspace c) eqn:Hc.
    + exists (c :: ws). split; [cbn; now rewrite <- E | now constructor].
    + exists []. split; [reflexivity | constructor].
Qed.

Lemma lstrip_app s t :
  forallb isspace s = false -> lstrip isspace (s ++ t) = lstrip isspace s ++ t.
Proof.
  induction s as [|c r IH]; cbn [forallb app lstrip]; [discriminate|].
  destruct (isspace c); cbn [andb]; [exact IH | reflexivity].
Qed.

Lemma lstrip_snoc s c :
  isspace c = false -> lstrip isspace (s ++ [c]) = lstrip isspace s ++ [c].
Proof.
  intros Hc. induction s as [|a r IH]; cbn [app lstrip].
  - now rewrite Hc.
  - destruct (isspace a); [exact IH | reflexivity].
Qed.

Lemma rstrip_spaces s ws : spaces isspace ws -> rstrip isspace (s ++ ws) = rstrip isspace s.
Proof.
  intros H. unfold rstrip. rewrite rev_app_distr, lstrip_spaces; [reflexivity|].
  now apply Forall_rev.
Qed.

Lemma rstrip_cons c s :
  isspace c = false -> rstrip isspace (c :: s) = c :: rstrip isspace s.
Proof.
  intros Hc. unfold rstrip. cbn [rev]. rewrite lstrip_snoc by exact Hc.
  now rewrite rev_app_distr.
Qed.

Lemma rstrip_suffix s :
  exists ws, s = rstrip isspace s ++ ws /\ spaces isspace ws.
Proof.
  destruct (lstrip_prefix (rev s)) as [ws [E H]]. exists (rev ws). split.
  - unfold rstrip. rewrite <- rev_app_distr, <- E. now rewrite rev_involutive.
  - now apply Forall_rev.
Qed.

(** Whitespace around a line does not survive [strip]. *)
Lemma strip_padded ws1 s ws2 :
  spaces isspace ws1 -> spaces isspace ws2 ->
  strip isspace (ws1 ++ s ++ ws2) = strip isspace s.
Proof.
  intros H1 H2. unfold strip. rewrite lstrip_spaces by exact H1.
  destruct (forallb isspace s) eqn:E.
  - assert (S : spaces isspace s) by (apply Forall_forall, forallb_forall; exact E).
    rewrite lstrip_spaces by exact S.
    now rewrite (lstrip_all_spaces ws2 H2), (lstrip_all_spaces s S).
  - rewrite lstrip_app by exact E. now apply rstrip_spaces.
Qed.

Lemma strip_head s :
  strip isspace s =
  match lstrip isspace s with
  | [] => []
  | c :: r => c :: rstrip isspace r
  end.
Proof.
  unfold strip. destruct (lstrip_prefix s) as [ws [E H]].
  destruct (lstrip isspace s) as [|c r] eqn:L; [reflexivity|].
  apply rstrip_cons.
  assert (G : forall ws t, spaces isspace ws -> lstrip isspace (ws ++ t) = c :: r ->
                           isspace c = false).
  { clear. intros ws t H. rewrite lstrip_spaces by exact H.
    induction t as [|a t IH]; cbn [lstrip]; [discriminate|].
    destruct (isspace a) eqn:Ha; [exact IH|]. now intros [= <- _]. }
  apply (G [] s); [constructor | exact L].
Qed.

Lemma split_lstrip s : split isspace (lstrip isspace s) = split isspace s.
Proof.
  induction s as [|c r IH]; [reflexivity|].
  cbn [lstrip]. destruct (isspace c) eqn:Hc; [|reflexivity].
  rewrite IH. cbn [split]. now rewrite Hc.
Qed.

Lemma split_snoc_space s c :
  isspace c = true -> split isspace (s ++ [c]) = split isspace s.
Proof.
  intros Hc. induction s as [|a r IH].
  - cbn. now rewrite Hc.
  - cbn [app]. cbn [split]. destruct (isspace a); [exact IH|].
    destruct r as [|b r'].
    + cbn [app split]. now rewrite !Hc.
    + cbn [app] in *. destruct (isspace b); now rewrite IH.
Qed.

Lemma split_spaces s ws : spaces isspace ws -> split isspace (s ++ ws) = split isspace s.
Proof.
  intros H. revert s. induction H as [|c r Hc _ IH]; intros s.
  - now rewrite app_nil_r.
  - change (c :: r) with ([c] ++ r). rewrite app_assoc, IH.
    now apply split_snoc_space.
Qed.

Lemma split_strip s : split isspace (strip isspace s) = split isspace s.
Proof.
  unfold strip. destruct (rstrip_suffix (lstrip isspace s)) as [ws [E H]].
  rewrite <- (split_lstrip s).
  transitivity (split isspace (rstrip isspace (lstrip isspace s) ++ ws)).
  - symmetry. now apply split_spaces.
  - now rewrite <- E.
Qed.

(** The pieces of [split] are not empty and hold no whitespace. *)
Lemma split_words s : forall w,
  In w (split isspace s) ->
  w <> [] /\ Forall (fun c => isspace c = false) w.
Proof.
  induction s as [|c r IH]; intros w; cbn [split]; [intros []|].
  destruct (isspace c) eqn:Hc; [apply IH|].
  destruct r as [|c' r'].
  - intros [<-|[]]. split; [discriminate | now repeat constructor].
  - destruct (isspace c') eqn:Hc'.
    + intros [<-|H]; [|now apply IH].
      split; [discriminate | now repeat constructor].
    + destruct (split isspace (c' :: r')) as [|w' ws] eqn:E.
      * intros [<-|[]]. split; [discriminate | now repeat constructor].
      * intros [<-|H].
        -- destruct (IH w' (or_introl eq_refl)) as [_ F].
           split; [discriminate | now constructor].
        -- apply IH. now right.
Qed.

Lemma split_blank s : spaces isspace s -> split isspace s = [].
Proof.
  induction 1 as [|c r Hc _ IH]; [reflexivity|]. cbn [split]. now rewrite Hc.
Qed.

(** ** The parameter table *)

Lemma parse_line_cases line :
  (parse_line isspace line = [] /\
   (startswith_hash (lstrip isspace line) = true \/
    (List.length (split isspace line) < 5)%nat)) \/
  (startswith_hash (lstrip isspace line) = false /\
   (5 <= List.length (split isspace line))%nat /\
   parse_line isspace line =
     [LogRow (nth 0 (split isspace line) []) (nth 1 (split isspace line) [])
             (nth 2 (split isspace line) []) (nth 3 (split isspace line) [])
             (nth 4 (split isspace line) [])
             (if (5 <? List.length (split isspace line))%nat
              then nth 5 (split isspace line) [] else lit "-")
             (if (6 <? List.length (split isspace line))%nat
              then nth 6 (split isspace line) [] else lit "-")]).
Proof.
  pose proof (strip_head line) as SH. pose proof (split_strip line) as SS.
  unfold parse_line. cbv zeta.
  destruct (strip isspace line) as [|c r] eqn:ST.
  - left. split; [reflexivity|]. right. rewrite <- SS. cbn. lia.
  - destruct (lstrip isspace line) as [|c' r']; [discriminate|].
    injection SH as -> _. rewrite SS. cbn [startswith_hash].
    destruct (N.eqb c' 35); [left; now split; [|left]|].
    destruct (5 <=? List.length (split isspace line))%nat eqn:E5.
    + right. apply Nat.leb_le in E5. split; [reflexivity|]. split; [exact E5|].
      assert (H2 : (2 <? List.length (split isspace line))%nat = true)
        by (apply Nat.ltb_lt; lia).
      assert (H3 : (3 <? List.length (split isspace line))%nat = true)
        by (apply Nat.ltb_lt; lia).
      assert (H4 : (4 <? List.length (split isspace line))%nat = true)
        by (apply Nat.ltb_lt; lia).
      now rewrite H2, H3, H4.
    + left. apply Nat.leb_gt in E5. split; [reflexivity | now right].
Qed.

(** A line yields no row exactly when its first character after the
    leading whitespace is [#] or it has fewer than five fields.  So blank
    lines are skipped, and a comment is skipped however far it is
    indented. *)
Theorem parse_line_skips (line : pystr) :
  (parse_line isspace line = [] <->
   startswith_hash (lstrip isspace line) = true \/
   (List.length (split isspace line) < 5)%nat) /\
  (spaces isspace line -> parse_line isspace line = []) /\
  (isspace 35 = false -> forall ws rest,
     spaces isspace ws -> parse_line isspace (ws ++ 35%N :: rest) = []).
Proof.
  assert (G : forall l,
             parse_line isspace l = [] <->
             startswith_hash (lstrip isspace l) = true \/
             (List.length (split isspace l) < 5)%nat).
  { intros l. destruct (parse_line_cases l) as [[E H]|[Hh [H5 E]]].
    - split; [now intros _ | now intros _].
    - rewrite E. split; [discriminate|]. intros [H|H]; [congruence | lia]. }
  split; [apply G|]. split.
  - intros H. apply G. right. rewrite (split_blank _ H). cbn. lia.
  - intros H35 ws rest H. apply G. left. rewrite lstrip_spaces by exact H.
    cbn [lstrip]. now rewrite H35.
Qed.

(** A row is made of the first fields of its line as they stand between
    runs of whitespace, whatever surrounds the line: the first five are
    always fields of the line, never the placeholder, not empty and free of
    whitespace; the sixth and seventh are the placeholder [-] when the
    line has no such field; fields beyond the seventh are ignored. *)
Theorem parse_line_row (line : pystr) (r : log_row) :
  In r (parse_line isspace line) ->
  parse_line isspace line = [r] /\
  (5 <= List.length (split isspace line))%nat /\
  statistic r = nth 0 (split isspace line) [] /\
  mean_field r = nth 1 (split isspace line) [] /\
  stderr_field r = nth 2 (split isspace line) [] /\
  median_field r = nth 3 (split isspace line) [] /\
  hpd_lower r = nth 4 (split isspace line) [] /\
  hpd_upper r = nth 5 (split isspace line) (lit "-") /\
  ess r = nth 6 (split isspace line) (lit "-") /\
  Forall (fun field => field <> [] /\ Forall (fun c => isspace c = false) field)
         [statistic r; mean_field r; stderr_field r; median_field r;
          hpd_lower r].
Proof.
  destruct (parse_line_cases line) as [[E _]|[_ [H5 E]]]; rewrite E.
  - intros [].
  - intros [<-|[]]. cbn [statistic mean_field stderr_field median_field
                         hpd_lower hpd_upper ess].
    remember (split isspace line) as parts eqn:Ep.
    assert (W : forall i, (i < 5)%nat ->
                nth i parts [] <> [] /\
                Forall (fun c => isspace c = false) (nth i parts [])).
    { intros i Hi. apply (split_words line). rewrite <- Ep.
      apply nth_In. lia. }
    repeat (split; [reflexivity|]). split; [exact H5|].
    repeat (split; [reflexivity|]). split; [|split].
    + destruct (5 <? List.length parts)%nat eqn:L.
      * apply nth_indep. now apply Nat.ltb_lt.
      * symmetry. apply nth_overflow. apply Nat.ltb_ge in L. lia.
    + destruct (6 <? List.length parts)%nat eqn:L.
      * apply nth_indep. now apply Nat.ltb_lt.
      * symmetry. apply nth_overflow. apply Nat.ltb_ge in L. lia.
    + repeat constructor; apply W; lia.
Qed.

(** Whitespace before and after a line changes nothing, and a file gives
    at most one row per line. *)
Theorem parse_line_ignores_padding (ws1 line ws2 : pystr) :
  spaces isspace ws1 -> spaces isspace ws2 ->
  parse_line isspace (ws1 ++ line ++ ws2) = parse_line isspace line /\
  forall before after,
    parse_loganalyser_output isspace (before ++ (ws1 ++ line ++ ws2) :: after) =
    parse_loganalyser_output isspace (before ++ line :: after) /\
    (List.length (parse_loganalyser_output isspace (before ++ line :: after))
     <= List.length (before ++ line :: after))%nat.
Proof.
  intros H1 H2.
  assert (E : parse_line isspace (ws1 ++ line ++ ws2) = parse_line isspace line).
  { unfold parse_line. now rewrite strip_padded. }
  split; [exact E|]. intros before after. split.
  - unfold parse_loganalyser_output. rewrite !flat_map_app. cbn [flat_map].
    now rewrite E.
  - unfold parse_loganalyser_output.
    induction (before ++ line :: after) as [|l ls IH]; cbn [flat_map List.length].
    + lia.
    + rewrite length_app.
      destruct (parse_line_cases l) as [[-> _]|[_ [_ ->]]]; cbn [List.length]; lia.
Qed.

End ReportFacts.

(** ** The ESS badge *)

Lemma float_lt_below x c : float_lt x c = true <-> below x c.
Proof.
  destruct x as [q| | |]; cbn; try (split; [discriminate | intros []]).
  - rewrite negb_true_iff. split.
    + intros E. apply Qnot_le_lt. intros H. apply Qle_bool_iff in H. congruence.
    + intros H. destruct (Qle_bool c q) eqn:E; [|reflexivity].
      apply Qle_bool_iff in E. exfalso. apply (Qlt_irrefl q).
      eapply Qlt_le_trans; eassumption.
  - split; auto.
Qed.

Lemma float_lt_false x c : float_lt x c = false <-> at_least x c \/ x = NaN.
Proof.
  destruct x as [q| | |]; cbn.
  - rewrite negb_false_iff, Qle_bool_iff. split; [now left|].
    intros [H|H]; [exact H | discriminate].
  - split; [now left | reflexivity].
  - split; [discriminate | intros [[]|H]; discriminate].
  - split; [now right | reflexivity].
Qed.

(** The ESS cell always starts with the text of the field.  When [float]
    rejects the text nothing is added; otherwise the badge is [Low] below
    200, [Fair] from 200 to below 500, and [Good] from 500 on and also
    for NaN, which passes neither comparison. *)
Theorem ess_cell_badge (float_of : pystr -> option pyfloat) (r : log_row) :
  (float_of (ess r) = None -> ess_cell float_of r = ess r) /\
  (forall v, float_of (ess r) = Some v ->
     ess_cell float_of r = ess r ++ badge_html (badge_of v) /\
     (badge_of v = Low <-> below v 200) /\
     (badge_of v = Fair <-> at_least v 200 /\ below v 500) /\
     (badge_of v = Good <-> at_least v 500 \/ v = NaN)).
Proof.
  unfold ess_cell. split; [now intros ->|]. intros v ->.
  split; [reflexivity|]. unfold badge_of.
  destruct (float_lt v 200) eqn:E2.
  - apply float_lt_below in E2.
    assert (N2 : ~ at_least v 200)
      by (apply (below_not_at_least v 200 200); [apply Qle_refl | exact E2]).
    assert (N5 : ~ at_least v 500)
      by (apply (below_not_at_least v 200 500); [discriminate | exact E2]).
    split; [|split].
    + now split.
    + split; [discriminate | now intros [H _]].
    + split; [discriminate|]. intros [H|H]; [contradiction|].
      subst v. destruct E2.
  - assert (B2 : ~ below v 200).
    { intros H. apply float_lt_below in H. congruence. }
    apply float_lt_false in E2.
    destruct (float_lt v 500) eqn:E5.
    + apply float_lt_below in E5.
      assert (N5 : ~ at_least v 500)
        by (apply (below_not_at_least v 500 500); [apply Qle_refl | exact E5]).
      split; [|split].
      * split; [discriminate | contradiction].
      * split; [intros _ | reflexivity]. split; [|exact E5].
        destruct E2 as [H|H]; [exact H|]. subst v. destruct E5.
      * split; [discriminate|]. intros [H|H]; [contradiction|].
        subst v. destruct E5.
    + assert (B5 : ~ below v 500).
      { intros H. apply float_lt_below in H. congruence. }
      apply float_lt_false in E5.
      split; [|split].
      * split; [discriminate | contradiction].
      * split; [discriminate | now intros [_ H]].
      * now split.
Qed.

(** ** Sampling dates *)

Section DateFacts.

Variable isdecimal : N -> bool.

Lemma has_four_decimals_cons a r :
  has_four_decimals isdecimal (a :: r) =
  year_here isdecimal (a :: r) || has_four_decimals isdecimal r.
Proof.
  cbn [has_four_decimals year_here].
  destruct r as [|b [|c [|d r']]]; reflexivity.
Qed.

Lemma year_here_app s t :
  year_here isdecimal s = true -> year_here isdecimal (s ++ t) = true.
Proof.
  destruct s as [|a [|b [|c [|d r]]]]; cbn [year_here]; try discriminate.
  intros H. exact H.
Qed.

(** The pattern at a fixed position. *)
Lemma match_date_here_spec s :
  match match_date_here isdecimal s with
  | None => year_here isdecimal s = false
  | Some m =>
      year_here isdecimal s = true /\
      exists post,
        s = m ++ post /\
        ((List.length m = 10%nat /\
          month_day_here isdecimal (skipn 4 m) = true) \/
         (List.length m = 4%nat /\ month_day_here isdecimal post = false))
  end.
Proof.
  unfold match_date_here.
  destruct s as [|a [|b [|c [|d r]]]]; try reflexivity.
  cbn [year_here].
  destruct (isdecimal a && isdecimal b && isdecimal c && isdecimal d);
    [|reflexivity].
  destruct r as [|h1 [|m1 [|m2 [|h2 [|d1 [|d2 r]]]]]];
    try (split; [reflexivity|]; eexists; split; [reflexivity|];
         right; split; reflexivity).
  destruct (is_hyphen h1 && isdecimal m1 && isdecimal m2 && is_hyphen h2 &&
            isdecimal d1 && isdecimal d2) eqn:E.
  - split; [reflexivity|]. exists r. split; [reflexivity|].
    left. split; [reflexivity|]. cbn [skipn month_day_here]. exact E.
  - split; [reflexivity|]. eexists. split; [reflexivity|].
    right. split; [reflexivity|]. cbn [month_day_here]. exact E.
Qed.

(** The leftmost match. *)
Lemma search_date_spec s :
  match search_date isdecimal s with
  | None => has_four_decimals isdecimal s = false
  | Some m =>
      has_four_decimals isdecimal s = true /\
      exists pre post,
        s = pre ++ m ++ post /\
        (forall k, (k < List.length pre)%nat ->
                   year_here isdecimal (skipn k s) = false) /\
        year_here isdecimal m = true /\
        ((List.length m = 10%nat /\
          month_day_here isdecimal (skipn 4 m) = true) \/
         (List.length m = 4%nat /\ month_day_here isdecimal post = false))
  end.
Proof.
  induction s as [|a r IH].
  - reflexivity.
  - cbn [search_date]. pose proof (match_date_here_spec (a :: r)) as M.
    rewrite has_four_decimals_cons.
    destruct (match_date_here isdecimal (a :: r)) as [m|].
    + destruct M as [Y [post [E L]]]. rewrite Y. split; [reflexivity|].
      exists [], post. split; [exact E|].
      split; [intros k Hk; cbn in Hk; lia|].
      split; [|exact L].
      destruct L as [[L _]|[L _]];
        destruct m as [|m1 [|m2 [|m3 [|m4 m']]]]; try discriminate L;
        rewrite E in Y; exact Y.
    + rewrite M. cbn [orb].
      destruct (search_date isdecimal r) as [m|]; [|exact IH].
      destruct IH as [H [pre [post [E [Hp [Y L]]]]]].
      split; [exact H|]. exists (a :: pre), post.
      split; [cbn; now rewrite <- E|]. split; [|now split].
      intros [|k] Hk; [exact M|]. cbn [skipn]. apply Hp.
      cbn [List.length] in Hk. lia.
Qed.

Lemma no_year_anywhere s :
  has_four_decimals isdecimal s = false ->
  forall k, year_here isdecimal (skipn k s) = false.
Proof.
  induction s as [|a r IH]; intros H k.
  - now destruct k.
  - rewrite has_four_decimals_cons in H. apply orb_false_iff in H.
    destruct H as [Ha Hr]. destruct k as [|k]; [exact Ha|].
    cbn [skipn]. now apply IH.
Qed.

Lemma month_day_here_app s t :
  month_day_here isdecimal s = true -> month_day_here isdecimal (s ++ t) = true.
Proof.
  destruct s as [|a [|b [|c [|d [|e [|f r]]]]]]; cbn [month_day_here];
    try discriminate.
  intros H. exact H.
Qed.

Lemma skipn_length_app {A : Type} (pre x : list A) :
  skipn (List.length pre) (pre ++ x) = x.
Proof. induction pre as [|a pre IH]; [reflexivity | exact IH]. Qed.

Lemma app_same_length {A : Type} (a b c d : list A) :
  a ++ b = c ++ d -> List.length a = List.length c -> a = c /\ b = d.
Proof.
  revert c. induction a as [|x a IH]; intros [|y c] E L; try discriminate L.
  - now split.
  - cbn [app] in E. injection E as -> E. injection L as L.
    destruct (IH c E L) as [-> ->]. now split.
Qed.

Lemma date_of_dated id : dated isdecimal id (date_of isdecimal id).
Proof.
  unfold dated, date_of. pose proof (search_date_spec id) as S.
  destruct (search_date isdecimal id) as [m|].
  - right. apply S.
  - left. now split.
Qed.

(** [dated] determines the date. *)
Lemma dated_unique id d1 d2 :
  dated isdecimal id d1 -> dated isdecimal id d2 -> d1 = d2.
Proof.
  assert (Y : forall d pre post,
             id = pre ++ d ++ post -> year_here isdecimal d = true ->
             year_here isdecimal (skipn (List.length pre) id) = true).
  { intros d pre post E H. rewrite E, skipn_length_app.
    now apply year_here_app. }
  intros [[N1 ->]|[pre1 [post1 [E1 [M1 [Y1 L1]]]]]]
         [[N2 ->]|[pre2 [post2 [E2 [M2 [Y2 L2]]]]]].
  - reflexivity.
  - pose proof (Y _ _ _ E2 Y2) as H.
    rewrite (no_year_anywhere id N1) in H. discriminate.
  - pose proof (Y _ _ _ E1 Y1) as H.
    rewrite (no_year_anywhere id N2) in H. discriminate.
  - assert (P : List.length pre1 = List.length pre2).
    { destruct (Nat.lt_trichotomy (List.length pre1) (List.length pre2))
        as [H|[H|H]]; [|exact H|].
      - pose proof (Y _ _ _ E1 Y1) as T. rewrite (M2 _ H) in T. discriminate.
      - pose proof (Y _ _ _ E2 Y2) as T. rewrite (M1 _ H) in T. discriminate. }
    assert (E : d1 ++ post1 = d2 ++ post2).
    { rewrite <- (skipn_length_app pre1 (d1 ++ post1)), <- E1.
      rewrite P, E2. apply skipn_length_app. }
    destruct L1 as [[L1 D1]|[L1 D1]], L2 as [[L2 D2]|[L2 D2]].
    + apply (app_same_length _ _ _ _ E). congruence.
    + exfalso. rewrite <- (firstn_skipn 4 d1), <- app_assoc in E.
      apply app_same_length in E.
      * destruct E as [_ E]. rewrite <- E in D2.
        rewrite (month_day_here_app _ _ D1) in D2. discriminate.
      * rewrite firstn_length_le; lia.
    + exfalso. rewrite <- (firstn_skipn 4 d2), <- app_assoc in E.
      symmetry in E. apply app_same_length in E.
      * destruct E as [_ E]. rewrite <- E in D1.
        rewrite (month_day_here_app _ _ D2) in D1. discriminate.
      * rewrite firstn_length_le; lia.
    + apply (app_same_length _ _ _ _ E). congruence.
Qed.

(** Without Biopython there is no table.  With it, the table has one
    taxon per record, in order, and the reported sequence length is that
    of the first record, 0 when there is none.  The date of a taxon is
    what the pattern finds in its name, and nothing else is: [Unknown]
    when the name has no four decimal digits in a row; otherwise the part
    of the name at the first place where four decimal digits start, no
    match starting anywhere before it: those four digits, or all ten
    characters when [-dd-dd] follows them. *)
Theorem parse_fasta_info_dates
    (parse : pystr -> list (pystr * nat)) (fasta_file : pystr) :
  parse_fasta_info isdecimal None fasta_file = None /\
  exists info,
    parse_fasta_info isdecimal (Some parse) fasta_file = Some info /\
    num_taxa info = List.length (taxa info) /\
    map taxon_name (taxa info) = map fst (parse fasta_file) /\
    map taxon_length (taxa info) = map snd (parse fasta_file) /\
    seq_length info = hd 0%nat (map snd (parse fasta_file)) /\
    forall t, In t (taxa info) ->
      dated isdecimal (taxon_name t) (taxon_date t) /\
      forall d, dated isdecimal (taxon_name t) d -> d = taxon_date t.
Proof.
  split; [reflexivity|]. unfold parse_fasta_info. cbv zeta.
  eexists. split; [reflexivity|]. cbn [num_taxa seq_length taxa].
  split; [now rewrite length_map|].
  split; [now rewrite map_map|]. split; [now rewrite map_map|].
  split; [now destruct (parse fasta_file)|].
  intros t Ht. apply in_map_iff in Ht. destruct Ht as [seq [<- _]].
  cbn [taxon_name taxon_date]. split; [apply date_of_dated|].
  intros d Hd. apply (dated_unique (fst seq)); [exact Hd | apply date_of_dated].
Qed.

End DateFacts.

(** ** The statements about the report at concrete inputs *)

Lemma parse_line_skips_witness :
  ascii_space 35 = false /\
  spaces ascii_space (lit "   ") /\
  parse_line ascii_space (lit "   " ++ 35%N :: lit " mean stderr median low high ESS") = [].
Proof.
  assert (H35 : ascii_space 35 = false) by reflexivity.
  assert (Hs : spaces ascii_space (lit "   ")) by (repeat constructor).
  split; [exact H35|]. split; [exact Hs|].
  destruct (parse_line_skips ascii_space []) as [_ [_ H]].
  exact (H H35 (lit "   ") (lit " mean stderr median low high ESS") Hs).
Defined.

Lemma parse_line_row_witness :
  In (LogRow (lit "kappa") (lit "1.0") (lit "0.1") (lit "1.0") (lit "0.8")
             (lit "-") (lit "-"))
     (parse_line ascii_space (lit "  kappa 1.0  0.1 1.0 0.8 ")) /\
  parse_line ascii_space (lit "  kappa 1.0  0.1 1.0 0.8 ") =
    [LogRow (lit "kappa") (lit "1.0") (lit "0.1") (lit "1.0") (lit "0.8")
            (lit "-") (lit "-")].
Proof.
  assert (H : In (LogRow (lit "kappa") (lit "1.0") (lit "0.1") (lit "1.0")
                         (lit "0.8") (lit "-") (lit "-"))
                 (parse_line ascii_space (lit "  kappa 1.0  0.1 1.0 0.8 ")))
    by (now left).
  split; [exact H|].
  exact (proj1 (parse_line_row ascii_space _ _ H)).
Defined.

Lemma parse_line_ignores_padding_witness :
  spaces ascii_space (lit "  ") /\ spaces ascii_space (lit " ") /\
  parse_line ascii_space
    (lit "  " ++ lit "kappa 1.0 0.1 1.0 0.8 1.2 300" ++ lit " ") =
  parse_line ascii_space (lit "kappa 1.0 0.1 1.0 0.8 1.2 300").
Proof.
  assert (H1 : spaces ascii_space (lit "  ")) by (repeat constructor).
  assert (H2 : spaces ascii_space (lit " ")) by (repeat constructor).
  split; [exact H1|]. split; [exact H2|].
  exact (proj1 (parse_line_ignores_padding ascii_space _
                  (lit "kappa 1.0 0.1 1.0 0.8 1.2 300") _ H1 H2)).
Defined.

Lemma ess_cell_badge_witness :
  (fun _ : pystr => Some NaN) (lit "NaN") = Some NaN /\
  badge_of NaN = Good.
Proof.
  split; [reflexivity|].
  destruct (ess_cell_badge (fun _ => Some NaN)
              (LogRow [] [] [] [] [] [] (lit "NaN"))) as [_ H].
  destruct (H NaN eq_refl) as [_ [_ [_ G]]].
  apply G. now right.
Defined.

Lemma parse_fasta_info_dates_witness :
  exists info,
    parse_fasta_info ascii_digit
      (Some (fun _ => [(lit "12345-06-07", 12%nat)])) (lit "in.fasta") =
      Some info /\
    In (Taxon (lit "12345-06-07") (lit "1234") 12) (taxa info) /\
    dated ascii_digit (lit "12345-06-07") (lit "1234") /\
    ~ dated ascii_digit (lit "12345-06-07") (lit "2345-06-07").
Proof.
  destruct (parse_fasta_info_dates ascii_digit
              (fun _ => [(lit "12345-06-07", 12%nat)]) (lit "in.fasta"))
    as [_ [info [E [_ [_ [_ [_ K]]]]]]].
  exists info. split; [exact E|].
  injection E as <-.
  assert (H : In (Taxon (lit "12345-06-07") (lit "1234") 12)
                 (taxa (FastaInfo 1 12
                          [Taxon (lit "12345-06-07") (lit "1234") 12])))
    by (now left).
  split; [exact H|]. split; [exact (proj1 (K _ H))|].
  intros D. pose proof (proj2 (K _ H) _ D) as W. discriminate W.
Defined.
